(** * Floopy: knowledge chunking, Pinecone sync and hybrid retrieval

    A shallow embedding of
      - [utils/knowledge.js]: [normalizeWhitespace], [chunkText],
        [buildChunkObjects];
      - [ai_champion_middleware.js]: [extractCaseIdsFromText],
        [embedTextsWithOllama], [syncFloppyToPinecone] and the retrieval
        closure returned by [createPineconeMemoryProvider].

    Modelling conventions.
      - A JavaScript string is a [string]: a sequence of code units below
        256.  [String.length] is the JS [length].  Case mapping is the ASCII
        one (the regular expressions of the source only name ASCII classes).
      - JS integers are [Z]; scores are exact rationals [Q] (the source
        compares and sorts them, and the only arithmetic on them is the
        lexical score).
      - [undefined]/[null] fields are [option]s; a JS object used as an open
        map (chunk and match metadata) is a [gmap string Val].
      - Network calls (Ollama embeddings, Pinecone namespaces) are commands
        of a small free monad [Prog]; an [Oracle] answers them, and running
        a program yields its result together with the trace of the commands
        it issued.  Logging is not modelled. *)

From Stdlib Require Import ZArith QArith Qminmax List String Ascii Lia Bool Sorted.
From Stdlib Require Import DecimalString.
From stdpp Require Import base option list strings gmap sorting.

Local Open Scope string_scope.
Local Open Scope list_scope.
Local Open Scope Z_scope.

(** ** JavaScript string primitives *)

Module Js.

Definition chars (s : string) : list ascii := list_ascii_of_string s.
Definition str (l : list ascii) : string := string_of_list_ascii l.

Definition code (c : ascii) : nat := nat_of_ascii c.

(** [s.length] *)
Definition len (s : string) : Z := Z.of_nat (String.length s).

(** Truthiness of a string value: [Boolean(s)]. *)
Definition truthy (s : string) : bool :=
  match s with EmptyString => false | _ => true end.

(** [a || b] on possibly-undefined strings. *)
Definition orElse (a b : option string) : option string :=
  match a with
  | Some s => if truthy s then a else b
  | None => b
  end.

(** [a || b] where [b] is a definite string. *)
Definition orStr (a : option string) (b : string) : string :=
  match a with
  | Some s => if truthy s then s else b
  | None => b
  end.

(** The code units matched by [\s] and removed by [trim()]:
    TAB, LF, VT, FF, CR, SPACE and NBSP. *)
Definition isWhiteSpace (c : ascii) : bool :=
  let n := code c in
  ((9 <=? n)%nat && (n <=? 13)%nat) || (n =? 32)%nat || (n =? 160)%nat.

Definition isDigit (c : ascii) : bool :=
  let n := code c in (48 <=? n)%nat && (n <=? 57)%nat.

Definition isLower (c : ascii) : bool :=
  let n := code c in (97 <=? n)%nat && (n <=? 122)%nat.

Definition isUpper (c : ascii) : bool :=
  let n := code c in (65 <=? n)%nat && (n <=? 90)%nat.

Definition lowerChar (c : ascii) : ascii :=
  if isUpper c then ascii_of_nat (code c + 32) else c.

Definition upperChar (c : ascii) : ascii :=
  if isLower c then ascii_of_nat (code c - 32) else c.

Definition toLowerCase (s : string) : string := str (map lowerChar (chars s)).
Definition toUpperCase (s : string) : string := str (map upperChar (chars s)).

Fixpoint dropWhile (p : ascii -> bool) (l : list ascii) : list ascii :=
  match l with
  | [] => []
  | c :: l' => if p c then dropWhile p l' else l
  end.

Fixpoint takeWhile (p : ascii -> bool) (l : list ascii) : list ascii :=
  match l with
  | [] => []
  | c :: l' => if p c then c :: takeWhile p l' else []
  end.

Definition trimChars (l : list ascii) : list ascii :=
  rev (dropWhile isWhiteSpace (rev (dropWhile isWhiteSpace l))).

(** [s.trim()] *)
Definition trim (s : string) : string := str (trimChars (chars s)).

(** [l] starts with [p]. *)
Fixpoint startsWith (p l : list ascii) : bool :=
  match p, l with
  | [], _ => true
  | a :: p', b :: l' => if decide (a = b) then startsWith p' l' else false
  | _ :: _, [] => false
  end.

Fixpoint includesChars (p l : list ascii) : bool :=
  startsWith p l ||
  match l with
  | [] => false
  | _ :: l' => includesChars p l'
  end.

(** [s.includes(p)] *)
Definition includes (s p : string) : bool := includesChars (chars p) (chars s).

(** [ws.join(sep)] *)
Fixpoint join (sep : string) (ws : list string) : string :=
  match ws with
  | [] => ""
  | [w] => w
  | w :: ws' => w +:+ sep +:+ join sep ws'
  end.

(** [s.replace(/c/g, r)] for a one-character class [p]. *)
Definition replaceEach (p : ascii -> bool) (r : list ascii) (l : list ascii)
  : list ascii :=
  flat_map (fun c => if p c then r else [c]) l.

(** [s.replace(/[p]+/g, r)]: every maximal run of [p] becomes one [r]. *)
Fixpoint replaceRuns (p : ascii -> bool) (r : list ascii) (inRun : bool)
    (l : list ascii) : list ascii :=
  match l with
  | [] => []
  | c :: l' =>
      if p c then (if inRun then [] else r) ++ replaceRuns p r true l'
      else c :: replaceRuns p r false l'
  end.

(** [s.split(c)] for a single separator character: never empty. *)
Fixpoint splitOn (sep : ascii) (cur : list ascii) (l : list ascii)
  : list (list ascii) :=
  match l with
  | [] => [rev cur]
  | c :: l' =>
      if decide (c = sep) then rev cur :: splitOn sep [] l'
      else splitOn sep (c :: cur) l'
  end.

(** [s.split(/\s+/).filter(Boolean)]: the maximal runs of non-whitespace. *)
Fixpoint splitWords (cur : list ascii) (l : list ascii) : list string :=
  match l with
  | [] => match cur with [] => [] | _ => [str (rev cur)] end
  | c :: l' =>
      if isWhiteSpace c
      then match cur with
           | [] => splitWords [] l'
           | _ => str (rev cur) :: splitWords [] l'
           end
      else splitWords (c :: cur) l'
  end.

(** Global regular-expression match, [s.match(/re/g) || []], for an
    expression that never matches the empty string: [matchAt l] is the length
    of the (greedy) match starting at the head of [l], if any.  After a
    match the scan resumes behind it; [skip] counts the characters of the
    current match that are still to be passed over. *)
Fixpoint matchAll (matchAt : list ascii -> option nat) (skip : nat)
    (l : list ascii) : list string :=
  match l with
  | [] => []
  | _ :: l' =>
      match skip with
      | S k => matchAll matchAt k l'
      | O =>
          match matchAt l with
          | Some (S n) => str (take (S n) l) :: matchAll matchAt n l'
          | _ => matchAll matchAt O l'
          end
      end
  end.

(** [Array.from(new Set(xs))]: first occurrences, in insertion order. *)
Definition uniq (xs : list string) : list string :=
  foldl (fun acc x => if decide (x ∈ acc) then acc else acc ++ [x]) [] xs.

(** [String(n)] for a non-negative integer. *)
Definition ofNat (n : nat) : string := NilZero.string_of_uint (Nat.to_uint n).

End Js.

(** ** Values, metadata maps and chunk objects *)

(** The JSON values that the modelled code reads from or writes to a
    metadata object. *)
Inductive Val : Type :=
  | VNull
  | VStr (s : string)
  | VNum (n : Z)
  | VArr (xs : list string).

(** [typeof m[k] === 'string' ? m[k] : undefined] *)
Definition getStr (m : gmap string Val) (k : string) : option string :=
  match m !! k with
  | Some (VStr s) => Some s
  | _ => None
  end.

(** A truthy string-valued property, as read by [m[k] || ...]. *)
Definition getTruthy (m : gmap string Val) (k : string) : option string :=
  match getStr m k with
  | Some s => if Js.truthy s then Some s else None
  | None => None
  end.

(** An element of [floppy.knowledgeChunks] as an object.  Absent
    properties are [None]. *)
Record Chunk : Type := mkChunk {
  id : option string;
  text : option string;
  content : option string;
  name : option string;
  sourceId : option string;
  sourceType : option string;
  sourceName : option string;
  metadata : option (gmap string Val);
}.

(** ** utils/knowledge.js *)

Module Knowledge.

Import Js.

Record Defaults : Type := {
  DEFAULT_CHUNK_SIZE : Z;
  DEFAULT_MIN_CHUNK_SIZE : Z;
}.

(** The values taken when the environment leaves them unset. *)
Definition stockDefaults : Defaults :=
  {| DEFAULT_CHUNK_SIZE := 900; DEFAULT_MIN_CHUNK_SIZE := 280 |}.

Definition NUL : ascii := ascii_of_nat 0.
Definition TAB : ascii := ascii_of_nat 9.
Definition LF : ascii := ascii_of_nat 10.
Definition VT : ascii := ascii_of_nat 11.
Definition FF : ascii := ascii_of_nat 12.
Definition CR : ascii := ascii_of_nat 13.
Definition SP : ascii := ascii_of_nat 32.
Definition NBSP : ascii := ascii_of_nat 160.

Definition isChar (a : ascii) (c : ascii) : bool := bool_decide (c = a).

(** [.replace(/\r\n?/g, '\n')] *)
Fixpoint replaceCrLf (l : list ascii) : list ascii :=
  match l with
  | [] => []
  | c :: l' =>
      if isChar CR c then
        match l' with
        | d :: l'' => if isChar LF d then LF :: replaceCrLf l''
                      else LF :: replaceCrLf l'
        | [] => [LF]
        end
      else c :: replaceCrLf l'
  end.

(** [.replace(/\n{3,}/g, '\n\n')]: [run] counts the line feeds just seen. *)
Fixpoint capNewlines (run : nat) (l : list ascii) : list ascii :=
  match l with
  | [] => []
  | c :: l' =>
      if isChar LF c
      then (if (run <? 2)%nat then [c] else []) ++ capNewlines (S run) l'
      else c :: capNewlines O l'
  end.

Definition joinChars (sep : ascii) (ls : list (list ascii)) : list ascii :=
  match ls with
  | [] => []
  | l :: ls' => l ++ flat_map (fun x => sep :: x) ls'
  end.

Definition normalizeWhitespace (input : string) : string :=
  if negb (truthy input) then "" else
  let s1 := replaceEach (isChar NUL) [SP] (chars input) in
  let s2 := replaceCrLf s1 in
  let s3 := replaceRuns (fun c => isChar TAB c || isChar FF c || isChar VT c) [SP] false s2 in
  let s4 := replaceEach (isChar NBSP) [SP] s3 in
  let lines := map trimChars (splitOn LF [] s4) in
  let s5 := joinChars LF lines in
  let s6 := capNewlines O s5 in
  str (trimChars s6).

Record Options : Type := mkOptions {
  chunkSize : option Z;
  minChunkSize : option Z;
  segments : option (list string);
  baseId : option string;
  useStableIds : bool;
}.

(** [Number.parseInt(v, 10) || d] for an integer or absent [v]. *)
Definition parseIntOr (v : option Z) (d : Z) : Z :=
  match v with
  | Some n => if n =? 0 then d else n
  | None => d
  end.

(** The mutable locals of the packing loop of [chunkText]. *)
Record Pack : Type := mkPack {
  chunks : list string;
  current : list string;
  currentLength : Z;
}.

Definition pushCurrent (st : Pack) : Pack :=
  match current st with
  | [] => st
  | _ =>
      let joined := trim (join " " (current st)) in
      {| chunks := if truthy joined then chunks st ++ [joined] else chunks st;
         current := [];
         currentLength := 0 |}
  end.

(** One iteration of [for (const word of words)]. *)
Definition packWord (size : Z) (st : Pack) (word : string) : Pack :=
  let addition := len word + (if currentLength st =? 0 then 0 else 1) in
  let st' :=
    if (currentLength st + addition >? size) && negb (bool_decide (current st = []))
    then pushCurrent st else st in
  {| chunks := chunks st';
     current := current st' ++ [word];
     currentLength := currentLength st' + addition |}.

Definition packWords (size : Z) (words : list string) : list string :=
  chunks (pushCurrent (foldl (packWord size) (mkPack [] [] 0) words)).

(** The closing step: a short last chunk is appended to its predecessor. *)
Definition mergeTail (minSize : Z) (cs : list string) : list string :=
  match rev cs with
  | tail :: prev :: before =>
      if len tail <? minSize
      then rev before ++ [trim (prev +:+ " " +:+ tail)]
      else cs
  | _ => cs
  end.

Definition wordsOf (normalized : string) : list string :=
  splitWords [] (chars normalized).

Definition chunkText (d : Defaults) (input : string) (options : Options)
  : list string :=
  let size := parseIntOr (chunkSize options) (DEFAULT_CHUNK_SIZE d) in
  let minSize := parseIntOr (minChunkSize options) (DEFAULT_MIN_CHUNK_SIZE d) in
  let normalized := normalizeWhitespace input in
  if negb (truthy normalized) then [] else
  let words := wordsOf normalized in
  match words with
  | [] => []
  | _ => mergeTail minSize (packWords size words)
  end.

(** The [source] argument of [buildChunkObjects]. *)
Record Source : Type := mkSource {
  src_id : string;
  src_type : string;
  src_name : string;
  src_metadata : gmap string Val;
}.

(** [uuid i] is the value [crypto.randomUUID()] returns while the chunk of
    index [i] is built. *)
Definition buildChunkObjects (d : Defaults) (uuid : nat -> string)
    (input : string) (source : Source) (options : Options) : list Chunk :=
  let providedSegments := option_map (filter (fun s => truthy s = true)) (segments options) in
  let segs :=
    match providedSegments with
    | Some (s :: ss) =>
        filter (fun s => truthy s = true) (map normalizeWhitespace (s :: ss))
    | _ => chunkText d input options
    end in
  let base := orStr (baseId options) (src_id source) in
  imap (fun index segment =>
    {| id := Some (if useStableIds options
                   then base +:+ ":" +:+ ofNat (index + 1)
                   else base +:+ ":" +:+ ofNat (index + 1) +:+ ":" +:+ uuid index);
       text := Some segment;
       content := None;
       name := None;
       sourceId := Some (src_id source);
       sourceType := Some (src_type source);
       sourceName := Some (src_name source);
       metadata := Some (<["chunkCount" := VNum (Z.of_nat (length segs))]>
                         (<["chunkIndex" := VNum (Z.of_nat index)]>
                          (src_metadata source))) |}) segs.

End Knowledge.

(** ** External services as commands *)

(** A thrown JS error, as far as [isPineconeNotFound] inspects it. *)
Record Err : Type := mkErr {
  statusCode : option Z;
  message : string;
}.

Inductive Outcome (A : Type) : Type :=
  | Threw (e : Err)
  | Returned (a : A).
Arguments Threw {A} e.
Arguments Returned {A} a.

(** What [fetch(.../api/embeddings)] followed by [resp.json()] can yield. *)
Inductive FetchResult : Type :=
  | FetchRejected (e : Err)
  | FetchNotOk (status : Z) (body : string)
  | FetchJson (embedding : option (list Q)).

(** A match of a Pinecone query response. *)
Record Match : Type := mkMatch {
  m_id : string;
  m_score : option Q;
  m_metadata : option (gmap string Val);
}.

(** A record passed to [upsert]. *)
Record VectorRecord : Type := mkVector {
  v_id : string;
  v_values : list Q;
  v_metadata : gmap string Val;
}.

Inductive Cmd : Type :=
  | FetchEmbedding (model prompt : string)
  | Query (indexName : string) (namespace : option string) (topK : Z)
          (vector : list Q)
  | DeleteAll (indexName namespace : string)
  | Upsert (indexName namespace : string) (vectors : list VectorRecord)
  | EnsureTenantIndex (tenantId : string) (dimension : Z).

Definition Resp (c : Cmd) : Type :=
  match c with
  | FetchEmbedding _ _ => FetchResult
  | Query _ _ _ _ => Outcome (list Match)
  | DeleteAll _ _ => Outcome unit
  | Upsert _ _ _ => Outcome unit
  | EnsureTenantIndex _ _ => Outcome (option string)
  end.

(** Programs that await external calls. *)
Inductive Prog (A : Type) : Type :=
  | Ret (a : A)
  | Do (c : Cmd) (k : Resp c -> Prog A).
Arguments Ret {A} a.
Arguments Do {A} c k.

Fixpoint bind {A B : Type} (p : Prog A) (f : A -> Prog B) : Prog B :=
  match p with
  | Ret a => f a
  | Do c k => Do c (fun r => bind (k r) f)
  end.

Notation "'let*' x ':=' p 'in' q" := (bind p (fun x => q))
  (at level 10, x name, p at level 100, q at level 200).

(** The environment: the answer to the [n]-th call, for each command. *)
Definition Oracle : Type := nat -> forall c : Cmd, Resp c.

(** Running a program: its result and the commands issued, in order. *)
Fixpoint run {A : Type} (o : Oracle) (n : nat) (p : Prog A) : A * list Cmd :=
  match p with
  | Ret a => (a, [])
  | Do c k => let '(a, t) := run o (S n) (k (o n c)) in (a, c :: t)
  end.

Definition result {A : Type} (o : Oracle) (p : Prog A) : A := fst (run o O p).
Definition trace {A : Type} (o : Oracle) (p : Prog A) : list Cmd := snd (run o O p).

Definition isQuery (c : Cmd) : bool :=
  match c with Query _ _ _ _ => true | _ => false end.
Definition isFetch (c : Cmd) : bool :=
  match c with FetchEmbedding _ _ => true | _ => false end.
Definition isUpsert (c : Cmd) : bool :=
  match c with Upsert _ _ _ => true | _ => false end.

(** ** ai_champion_middleware.js *)

Module Middleware.

Import Js.

(** The module-level state the modelled functions read. *)
Record Runtime : Type := mkRuntime {
  clientReady : bool;           (* [pineconeClient] is not null *)
  enabled : bool;               (* [pineconeConfig.enabled] *)
  embedModel : string;          (* [pineconeConfig.embedModel] *)
  queryTopK : Z;                (* [pineconeConfig.queryTopK] *)
}.

(** [pineconeConfig.queryTopK] from the parsed [PINECONE_QUERY_TOP_K]
    ([None] when it does not parse to a finite number). *)
Definition queryTopKOf (parsed : option Z) : Z :=
  match parsed with
  | Some n => Z.max 1 (Z.min 20 n)
  | None => 6
  end.

Definition isAlnum (c : ascii) : bool := isLower c || isDigit c.
Definition isDash (c : ascii) : bool := bool_decide (c = "-"%char).
Definition isNameChar (c : ascii) : bool := isAlnum c || isDash c.

(** [.replace(/^-+|-+$/g, '')] *)
Definition stripDashes (l : list ascii) : list ascii :=
  rev (dropWhile isDash (rev (dropWhile isDash l))).

Definition sanitizeIndexName (raw : string) : string :=
  let fallback := "default" in
  let base :=
    str (stripDashes
           (replaceRuns isDash (chars "-") false
              (map (fun c => if isNameChar c then c else "-"%char)
                   (chars (toLowerCase raw))))) in
  let base := if truthy base then base else fallback in
  let truncated := str (take 40 (chars base)) in
  "tenant-" +:+ (if truthy truncated then truncated else fallback).

Definition isNamespaceChar (c : ascii) : bool :=
  isNameChar c || bool_decide (c = "_"%char).

Definition sanitizeNamespace (raw : string) : string :=
  let fallback := "default" in
  let base :=
    str (stripDashes
           (replaceRuns isDash (chars "-") false
              (map (fun c => if isNamespaceChar c then c else "-"%char)
                   (chars (toLowerCase raw))))) in
  let base := if truthy base then base else fallback in
  let sliced := str (take 63 (chars base)) in
  if truthy sliced then sliced else fallback.

Definition isPineconeNotFound (e : Err) : bool :=
  bool_decide (statusCode e = Some 404)
  || includes (toLowerCase (message e)) "404"
  || includes (toLowerCase (message e)) "not found".

(** The match of [/CS\d{5,}/] at the head of [l]. *)
Definition caseIdAt (l : list ascii) : option nat :=
  match l with
  | c :: s :: rest =>
      if bool_decide (c = "C"%char) && bool_decide (s = "S"%char) then
        let digits := takeWhile isDigit rest in
        if (5 <=? length digits)%nat then Some (2 + length digits)%nat else None
      else None
  | _ => None
  end.

Definition extractCaseIdsFromText (text : string) : list string :=
  if negb (truthy text) then []
  else uniq (matchAll caseIdAt O (chars (toUpperCase text))).

(** The match of [/[a-z0-9][a-z0-9-]{2,}/] at the head of [l]. *)
Definition tokenAt (l : list ascii) : option nat :=
  match l with
  | c :: rest =>
      if isAlnum c then
        let more := takeWhile isNameChar rest in
        if (2 <=? length more)%nat then Some (1 + length more)%nat else None
      else None
  | [] => None
  end.

(** [embedTextsWithOllama]: one request per text, the first failure throws. *)
Fixpoint embedLoop (model : string) (texts : list string)
    (results : list (list Q)) : Prog (Outcome (list (list Q))) :=
  match texts with
  | [] => Ret (Returned results)
  | t :: ts =>
      Do (FetchEmbedding model t) (fun resp =>
        match resp with
        | FetchRejected e => Ret (Threw e)
        | FetchNotOk status body =>
            Ret (Threw (mkErr None
              ("Ollama embedding request failed (" +:+ NilZero.string_of_int (Z.to_int status)
               +:+ "): " +:+ body)))
        | FetchJson None =>
            Ret (Threw (mkErr None "Ollama embedding response missing embedding array"))
        | FetchJson (Some v) => embedLoop model ts (results ++ [v])
        end)
  end.

Definition embedTextsWithOllama (rt : Runtime) (texts : list string)
  : Prog (Outcome (list (list Q))) :=
  embedLoop (embedModel rt) texts [].

(** The [stopWords] set of [createPineconeMemoryProvider].  The source
    consults it in [extractKeywords] only, when it ranks the keywords of a
    kept snippet. *)
Definition stopWords : list string :=
  [ "the"; "and"; "for"; "with"; "that"; "this"; "from"; "have"; "your"; "will";
    "into"; "about"; "there"; "their"; "when"; "what"; "which"; "while"; "where";
    "these"; "those"; "been"; "being"; "more"; "some"; "than"; "then"; "them";
    "they"; "could"; "would"; "should"; "because"; "through"; "using"; "given";
    "after"; "before"; "during"; "within"; "between"; "among"; "over"; "under";
    "into"; "onto"; "also"; "just"; "very"; "each"; "other"; "every"; "such";
    "amongst"; "maybe"; "might"; "much"; "many"; "like"; "said"; "does"; "done";
    "only"; "even"; "well"; "keep"; "know" ].

(** An element of [floppy.knowledgeChunks]. *)
Inductive KnowledgeChunk : Type :=
  | KNull
  | KStr (s : string)
  | KObj (c : Chunk).

Record Floppy : Type := mkFloppy {
  f_id : string;
  f_title : option string;
  knowledgeChunks : list KnowledgeChunk;
}.

Record Target : Type := mkTarget {
  indexName : option string;
  namespace : option string;
}.

(** An element of [aggregated]. *)
Record Entry : Type := mkEntry {
  target : Target;
  match_ : Match;
}.

(** [chunk?.text] and [chunk?.content] of any element. *)
Definition chunkObj (k : KnowledgeChunk) : Chunk :=
  match k with
  | KObj c => c
  | _ => mkChunk None None None None None None None None
  end.

(** [typeof chunk?.text === 'string' ? chunk.text : String(chunk?.content || '')] *)
Definition chunkTextRaw (k : KnowledgeChunk) : string :=
  match text (chunkObj k) with
  | Some s => s
  | None => orStr (content (chunkObj k)) ""
  end.

Definition chunkMetadata (k : KnowledgeChunk) : gmap string Val :=
  default ∅ (metadata (chunkObj k)).

(** [chunk.id || chunkMetadata.chunkId || `${floppy.id}:chunk:${idx}`] *)
Definition chunkIdOf (floppy : Floppy) (idx : nat) (k : KnowledgeChunk) : string :=
  orStr (orElse (id (chunkObj k)) (getTruthy (chunkMetadata k) "chunkId"))
        (f_id floppy +:+ ":chunk:" +:+ ofNat idx).

(** The existing keywords of a chunk: trimmed, non-empty strings. *)
Definition chunkKeywords (md : gmap string Val) : list string :=
  match md !! "keywords" with
  | Some (VArr ws) => filter (fun w => truthy w = true) (map trim ws)
  | _ => []
  end.

Definition sourceLabel (k : KnowledgeChunk) (chunkId : string) : string :=
  let md := chunkMetadata k in
  orStr (orElse (getTruthy md "sourceName")
        (orElse (getTruthy md "title")
        (orElse (getTruthy md "filename")
        (orElse (getTruthy md "documentTitle")
        (orElse (getTruthy md "source")
        (orElse (getTruthy md "groupName")
                (name (chunkObj k))))))))
        chunkId.

Definition CASE_ID_SCORE : Q := 999 # 1000.

(** The body of the [forEach] that fills [directCaseMatches]. *)
Definition directCaseMatch (floppy : Floppy) (queryCaseIdsLower : list string)
    (idx : nat) (k : KnowledgeChunk) : option Match :=
  let raw := chunkTextRaw k in
  if negb (truthy raw) then None else
  let lower := toLowerCase raw in
  let matchedIds := filter (fun i => includes lower i = true) queryCaseIdsLower in
  match matchedIds with
  | [] => None
  | _ =>
      let md := chunkMetadata k in
      let chunkId := chunkIdOf floppy idx k in
      Some {| m_id := chunkId;
              m_score := Some CASE_ID_SCORE;
              m_metadata := Some (
                <["text" := VStr raw]>
                (<["matchedCaseIds" := VArr (map toUpperCase matchedIds)]>
                (<["keywords" := VArr (uniq (chunkKeywords md ++ matchedIds))]>
                (<["sourceName" := VStr (sourceLabel k chunkId)]>
                (<["chunkId" := VStr chunkId]>
                (<["origin" := VStr "case-id"]> md)))))) |}
  end.

Definition directCaseMatches (floppy : Floppy) (queryCaseIdsLower : list string)
  : list Match :=
  match queryCaseIdsLower, knowledgeChunks floppy with
  | _ :: _, _ :: _ =>
      omap (fun p => directCaseMatch floppy queryCaseIdsLower (fst p) (snd p))
           (imap pair (knowledgeChunks floppy))
  | _, _ => []
  end.

(** [Math.min(0.98, 0.6 + (hits / total) * 0.4)] *)
Definition lexicalScore (hits total : nat) : Q :=
  Qmin (98 # 100)
       ((6 # 10) + (inject_Z (Z.of_nat hits) / inject_Z (Z.of_nat total)) * (4 # 10)).

(** [strongTokens.length ? strongTokens : uniqueTokens] *)
Definition searchTokensOf (uniqueTokens : list string) : list string :=
  match filter (fun t => len t > 2) uniqueTokens with
  | [] => uniqueTokens
  | strongTokens => strongTokens
  end.

(** The body of the [forEach] that fills [lexicalMatches]. *)
Definition lexicalMatch (floppy : Floppy) (queryCaseIdsLower searchTokens : list string)
    (idx : nat) (k : KnowledgeChunk) : option Match :=
  let raw := chunkTextRaw k in
  if negb (truthy raw) then None else
  let chunkText := toLowerCase raw in
  if negb (bool_decide (queryCaseIdsLower = []))
     && negb (existsb (fun i => includes chunkText i) queryCaseIdsLower)
  then None else
  let hits := filter (fun t => includes chunkText t = true) searchTokens in
  match hits with
  | [] => None
  | _ =>
      let md := chunkMetadata k in
      let chunkId := chunkIdOf floppy idx k in
      let caseKeywords :=
        map toUpperCase (filter (fun i => includes chunkText i = true) queryCaseIdsLower) in
      Some {| m_id := chunkId;
              m_score := Some (lexicalScore (length hits) (length searchTokens));
              m_metadata := Some (
                <["text" := VStr raw]>
                (<["keywords" := VArr (uniq (chunkKeywords md ++ hits ++ caseKeywords))]>
                (<["sourceName" := VStr (sourceLabel k chunkId)]>
                (<["chunkId" := VStr chunkId]>
                (<["origin" := VStr (orStr (getTruthy md "origin") "lexical")]> md))))) |}
  end.

Definition lexicalMatches (floppy : Floppy) (queryCaseIdsLower uniqueTokens : list string)
  : list Match :=
  match uniqueTokens, knowledgeChunks floppy with
  | _ :: _, _ :: _ =>
      let searchTokens := searchTokensOf uniqueTokens in
      omap (fun p => lexicalMatch floppy queryCaseIdsLower searchTokens (fst p) (snd p))
           (imap pair (knowledgeChunks floppy))
  | _, _ => []
  end.

(** The target recorded for a locally found match. *)
Definition localTarget (m : Match) : Target :=
  let md := default ∅ (m_metadata m) in
  {| indexName := getTruthy md "pineconeIndex";
     namespace := getTruthy md "pineconeNamespace" |}.

(** [match?.score ?? 0], the key of [aggregated.sort]. *)
Definition scoreKey (m : Match) : Q := default (0 # 1) (m_score m).

(** [a] sorts strictly before [b]: the comparator
    [(a, b) => (b.match?.score ?? 0) - (a.match?.score ?? 0)] is negative. *)
Definition before (a b : Entry) : bool :=
  negb (Qle_bool (scoreKey (match_ a)) (scoreKey (match_ b))).

(** [Array.prototype.sort] is stable; for this comparator its result is the
    one of a stable insertion sort on decreasing [scoreKey]. *)
Fixpoint insertEntry (e : Entry) (sorted : list Entry) : list Entry :=
  match sorted with
  | [] => [e]
  | x :: rest => if before x e then x :: insertEntry e rest else e :: x :: rest
  end.

Definition sortEntries (l : list Entry) : list Entry := foldr insertEntry [] l.

(** An element of the returned list.  [r_metadata] is the object that the
    source serialises into [Fields.metadata], before the keyword and score
    enrichment (which no field below depends on); [createdAt] is left out. *)
Record Result : Type := mkResult {
  Score : option Q;
  doc_id : string;
  role : string;
  content : string;
  model : string;
  r_metadata : gmap string Val;
}.

Definition snippetOf (md : gmap string Val) : string :=
  match getStr md "text" with
  | Some t => if truthy (trim t) then trim t
              else match getStr md "snippet" with
                   | Some s => if truthy (trim s) then trim s else ""
                   | None => ""
                   end
  | None => match getStr md "snippet" with
            | Some s => if truthy (trim s) then trim s else ""
            | None => ""
            end
  end.

(** [metadata.chunkId || metadata.id || match.id] *)
Definition docIdOf (m : Match) : string :=
  let md := default ∅ (m_metadata m) in
  orStr (orElse (getTruthy md "chunkId") (getTruthy md "id")) (m_id m).

(** [{ ...m, k: v || null }] *)
Definition optInsert (k : string) (v : option string) (m : gmap string Val)
  : gmap string Val :=
  match v with
  | Some s => <[k := VStr s]> m
  | None => <[k := VNull]> m
  end.

Definition mkResultOf (e : Entry) (snippet docId : string) : Result :=
  let md := default ∅ (m_metadata (match_ e)) in
  {| Score := m_score (match_ e);
     doc_id := docId;
     role := orStr (getTruthy md "role") "knowledge";
     content := snippet;
     model := orStr (getTruthy md "model") "pinecone";
     r_metadata :=
       optInsert "pineconeNamespace"
         (orElse (namespace (target e)) (getTruthy md "pineconeNamespace"))
         (optInsert "pineconeIndex"
            (orElse (indexName (target e)) (getTruthy md "pineconeIndex")) md) |}.

(** The snippet of an entry; the entry is skipped when it is empty. *)
Definition snippetOfEntry (e : Entry) : string :=
  snippetOf (default ∅ (m_metadata (match_ e))).

(** The element pushed onto [results] for a kept entry. *)
Definition toResult (e : Entry) : Result :=
  mkResultOf e (snippetOfEntry e) (docIdOf (match_ e)).

(** The loop [for (const { target, match } of aggregated)]. *)
Fixpoint collect (effectiveLimit : Z) (aggregated : list Entry)
    (seen : gset string) (results : list Result) : list Result :=
  match aggregated with
  | [] => results
  | e :: rest =>
      if Z.of_nat (length results) >=? effectiveLimit then results else
      if negb (truthy (snippetOfEntry e))
      then collect effectiveLimit rest seen results else
      let docId := docIdOf (match_ e) in
      if negb (truthy docId) || bool_decide (docId ∈ seen)
      then collect effectiveLimit rest seen results
      else collect effectiveLimit rest ({[ docId ]} ∪ seen)
                   (results ++ [toResult e])
  end.

(** [Math.max(1, Math.min(20, topK || maxTopK))] *)
Definition limitOf (rt : Runtime) (topK : option Z) : Z :=
  let maxTopK := if queryTopK rt =? 0 then 6 else queryTopK rt in
  let requested := match topK with
                   | Some n => if n =? 0 then maxTopK else n
                   | None => maxTopK
                   end in
  Z.max 1 (Z.min 20 requested).

(** The loop [for (const target of resolvedTargets)]. *)
Fixpoint queryTargets (limit : Z) (vector : list Q) (targets : list Target)
    (aggregated : list Entry) : Prog (list Entry) :=
  match targets with
  | [] => Ret aggregated
  | t :: ts =>
      Do (Query (default "" (indexName t))
                (match namespace t with
                 | Some ns => if truthy ns then Some ns else None
                 | None => None
                 end)
                limit vector)
         (fun resp =>
            match resp with
            | Threw _ => queryTargets limit vector ts aggregated
            | Returned matches =>
                queryTargets limit vector ts
                  (aggregated ++ map (mkEntry t) matches)
            end)
  end.

(** The tokens of the query: [text.toLowerCase().match(...) || []], made
    unique. *)
Definition uniqueTokensOf (text : string) : list string :=
  uniq (matchAll tokenAt O (chars (toLowerCase text))).

Definition queryCaseIdsLowerOf (text : string) : list string :=
  map toLowerCase (extractCaseIdsFromText text).

(** [aggregated] once the exact-identifier and lexical matches have been
    pushed behind the vector matches. *)
Definition aggregate (floppy : Floppy) (text : string) (vectorHits : list Entry)
  : list Entry :=
  let direct := directCaseMatches floppy (queryCaseIdsLowerOf text) in
  let lexical :=
    lexicalMatches floppy (queryCaseIdsLowerOf text) (uniqueTokensOf text) in
  vectorHits
  ++ map (fun m => mkEntry (localTarget m) m) direct
  ++ map (fun m => mkEntry (localTarget m) m) lexical.

(** The sort and the de-duplicating walk. *)
Definition rank (limit : Z) (aggregated : list Entry) : list Result :=
  match aggregated with
  | [] => []
  | _ => collect (Z.max 1 limit) (sortEntries aggregated) ∅ []
  end.

(** Everything after the vector queries. *)
Definition finish (floppy : Floppy) (limit : Z) (text : string)
    (vectorHits : list Entry) : list Result :=
  rank limit (aggregate floppy text vectorHits).

(** The async function returned by [createPineconeMemoryProvider];
    [query] is [None] when the argument is not a string. *)
Definition retrieve (rt : Runtime) (floppy : Floppy) (resolvedTargets : list Target)
    (query : option string) (topK : option Z) : Prog (list Result) :=
  let text := match query with Some q => trim q | None => "" end in
  if negb (truthy text) then Ret [] else
  let* embedded := embedTextsWithOllama rt [text] in
  match embedded with
  | Threw _ => Ret []
  | Returned embeddings =>
      match embeddings with
      | [] => Ret []
      | [] :: _ => Ret []
      | vector :: _ =>
          let limit := limitOf rt topK in
          let* vectorHits := queryTargets limit vector resolvedTargets [] in
          Ret (finish floppy limit text vectorHits)
      end
  end.

(** [resolvedTargets] is the caller's [targets] when that is a non-empty
    array, as it is at the only call site, which passes
    [resolvePineconeTargetsForFloppy(floppy, tenantKey)]. *)
Definition createPineconeMemoryProvider (rt : Runtime) (floppy : option Floppy)
    (resolvedTargets : list Target)
  : option (option string -> option Z -> Prog (list Result)) :=
  if negb (clientReady rt) || negb (enabled rt) then None else
  match floppy, resolvedTargets with
  | Some f, _ :: _ => Some (retrieve rt f resolvedTargets)
  | _, _ => None
  end.

(** *** syncFloppyToPinecone *)

(** An element of [prepared]. *)
Record Prepared : Type := mkPrepared {
  p_id : string;
  p_text : string;
  p_sourceType : string;
  p_sourceName : string;
  p_metadata : gmap string Val;
}.

(** The callback of [chunks.map(...)]; [None] is the [null] it returns. *)
Definition prepareChunk (floppy : Floppy) (index : nat) (k : KnowledgeChunk)
  : option Prepared :=
  match k with
  | KNull => None
  | KStr s =>
      if negb (truthy s) then None else
      let trimmed := trim s in
      if negb (truthy trimmed) then None else
      Some {| p_id := f_id floppy +:+ ":legacy:" +:+ ofNat index;
              p_text := trimmed;
              p_sourceType := "manual";
              p_sourceName := "Manual knowledge";
              p_metadata := {[ "source" := VStr "manual" ]} |}
  | KObj c =>
      let t := trim (orStr (text c) "") in
      if negb (truthy t) then None else
      let md := default ∅ (metadata c) in
      Some {| p_id := orStr (id c) (f_id floppy +:+ ":chunk:" +:+ ofNat index);
              p_text := t;
              p_sourceType :=
                orStr (orElse (sourceType c) (getTruthy md "source")) "manual";
              p_sourceName :=
                orStr (orElse (sourceName c)
                         (orElse (getTruthy md "filename") (getTruthy md "source"))) "";
              p_metadata := md |}
  end.

(** [chunks.map(...).filter((item) => item && item.text)] *)
Definition prepare (floppy : Floppy) : list Prepared :=
  filter (fun p => truthy (p_text p) = true)
         (omap (fun p => prepareChunk floppy (fst p) (snd p))
               (imap pair (knowledgeChunks floppy))).

Section Sync.

(** [crypto.createHash('sha256').update(s).digest('hex')] and
    [JSON.stringify], library functions of the platform. *)
Variable sha256hex : string -> string.
Variable jsonStringify : Val -> string.

(** [uuid] is the value [crypto.randomUUID()] would return. *)
Definition hashChunkId (uuid : string) (raw : string) : string :=
  sha256hex (if truthy raw then raw else uuid).

Definition normalizeMetadata (input : gmap string Val) : gmap string Val :=
  omap (fun v => match v with
                 | VNull => None
                 | VArr _ => Some (VStr (jsonStringify v))
                 | _ => Some v
                 end) input.

Definition vectorOf (uuid : string) (tenantId : string) (floppy : Floppy)
    (embeddings : list (list Q)) (idx : nat) (chunk : Prepared) : VectorRecord :=
  {| v_id := hashChunkId uuid (p_id chunk);
     v_values :=
       match embeddings !! idx with
       | Some values => values
       | None => default [] (head embeddings)
       end;
     v_metadata :=
       normalizeMetadata (p_metadata chunk) ∪
       (<["text" := VStr (str (take 512 (chars (p_text chunk))))]>
       (<["sourceName" := VStr (p_sourceName chunk)]>
       (<["sourceType" := VStr (if truthy (p_sourceType chunk)
                                then p_sourceType chunk else "manual")]>
       (<["chunkId" := VStr (p_id chunk)]>
       (<["floppyTitle" := VStr (orStr (f_title floppy) "")]>
       (<["floppyId" := VStr (f_id floppy)]>
       (<["tenantId" := VStr tenantId]> ∅))))))) |}.

(** The promise settles with [Returned tt] or rejects with the error thrown
    by the embedding call, [ensureTenantIndex] or [upsert].  The command
    [EnsureTenantIndex] stands for the call of [ensureTenantIndex]. *)
Definition syncFloppyToPinecone (rt : Runtime) (uuid : string)
    (tenantId : string) (floppy : option Floppy) : Prog (Outcome unit) :=
  match floppy with
  | None => Ret (Returned tt)
  | Some floppy =>
  if negb (clientReady rt) || negb (enabled rt) || negb (truthy tenantId)
  then Ret (Returned tt) else
  let prepared := prepare floppy in
  let ns := sanitizeNamespace ("floppy-" +:+ f_id floppy) in
  let index := sanitizeIndexName (if truthy tenantId then tenantId else "default") in
  match prepared with
  | [] => Do (DeleteAll index ns) (fun _ => Ret (Returned tt))
  | _ =>
      let* embedded := embedTextsWithOllama rt (map p_text prepared) in
      match embedded with
      | Threw e => Ret (Threw e)
      | Returned embeddings =>
          match embeddings with
          | [] => Ret (Returned tt)
          | [] :: _ => Ret (Returned tt)
          | first :: _ =>
              Do (EnsureTenantIndex tenantId (Z.of_nat (length first))) (fun ensured =>
                match ensured with
                | Threw e => Ret (Threw e)
                | Returned None => Ret (Returned tt)
                | Returned (Some ensuredIndexName) =>
                    if negb (truthy ensuredIndexName) then Ret (Returned tt) else
                    Do (DeleteAll ensuredIndexName ns) (fun _ =>
                      Do (Upsert ensuredIndexName ns
                            (imap (vectorOf uuid tenantId floppy embeddings) prepared))
                         (fun upserted =>
                            match upserted with
                            | Threw e => Ret (Threw e)
                            | Returned _ => Ret (Returned tt)
                            end))
                end)
          end
      end
  end
  end.

End Sync.

End Middleware.

(** ** Predicates of the statements *)

Module JsProps.

Import Js.

(** A string is tight when it is non-empty and neither starts nor ends with
    white space: [trim] leaves it alone. *)
Definition tightChars (l : list ascii) : Prop :=
  (exists a l', l = a :: l' /\ isWhiteSpace a = false) /\
  (exists b l', l = l' ++ [b] /\ isWhiteSpace b = false).

Definition tight (s : string) : Prop := tightChars (chars s).

(** A word: a non-empty string without white space. *)
Definition wordChars (l : list ascii) : Prop :=
  l <> [] /\ Forall (fun c => isWhiteSpace c = false) l.

Definition word (s : string) : Prop := wordChars (chars s).

Definition nonSpace (c : ascii) : Prop := isWhiteSpace c = false.

End JsProps.

Module ChunkProps.

Import Js JsProps Knowledge.

Section Packing.

Variable size : Z.
Variable ws : list string.

(** A chunk respects the limit, or is one over-long token on its own. *)
Definition fits (c : string) : Prop :=
  len c <= size \/ (c ∈ ws /\ size < len c).

Definition token (w : string) : Prop := word w /\ w ∈ ws.

(** What holds of the locals of the packing loop at every point. *)
Record Inv0 (st : Pack) : Prop := {
  inv_chunks : Forall fits (chunks st);
  inv_tight : Forall tight (chunks st);
  inv_tokens : Forall token (current st);
  inv_len : match current st with
            | [] => currentLength st = 0
            | _ => len (join " " (current st)) <= currentLength st
                   <= len (join " " (current st)) + 1
            end;
  inv_room : match current st with
             | [] | [_] => True
             | _ => currentLength st <= size
             end;
  inv_next : forall c w rest,
      last (chunks st) = Some c -> current st = w :: rest ->
      size < len c + len w + 2;
  inv_pair : forall before prev tail,
      chunks st = before ++ [prev; tail] -> size <= len prev + 1 + len tail;
}.

(** Between two iterations the buffer is empty only before the first word. *)
Definition Inv (st : Pack) : Prop :=
  Inv0 st /\ (current st = [] -> chunks st = []).

End Packing.

Arguments inv_chunks {size ws} st _.
Arguments inv_tight {size ws} st _.
Arguments inv_tokens {size ws} st _.
Arguments inv_len {size ws} st _.
Arguments inv_room {size ws} st _.
Arguments inv_next {size ws} st _.
Arguments inv_pair {size ws} st _.

Definition tokensOf (input : string) : list string :=
  wordsOf (normalizeWhitespace input).

Definition minSizeOf (d : Defaults) (options : Options) : Z :=
  parseIntOr (minChunkSize options) (DEFAULT_MIN_CHUNK_SIZE d).

(** Every chunk is within the limit or is one over-long token. *)
Definition allWithinLimit (d : Defaults) (input : string) (options : Options)
    (n : Z) : Prop :=
  Forall (fits n (tokensOf input)) (chunkText d input options).

(** No chunk is shorter than the minimum unless it is the only one. *)
Definition noShortChunk (d : Defaults) (input : string) (options : Options)
    (m : Z) : Prop :=
  forall c, c ∈ chunkText d input options -> len c < m ->
            chunkText d input options = [c].

End ChunkProps.

Module RankProps.

Import Js Middleware.

Definition keyOf (e : Entry) : Q := scoreKey (match_ e).
Definition docIdE (e : Entry) : string := docIdOf (match_ e).
Definition resultKey (r : Result) : Q := default (0 # 1) (Score r).

(** The entry carries a non-empty snippet. *)
Definition usable (e : Entry) : Prop := truthy (snippetOfEntry e) = true.

Definition descending (a b : Entry) : Prop := (keyOf b <= keyOf a)%Q.

(** The choices of the walk over the sorted entries: [n] results have been
    pushed so far, [kept] are the entries still to be pushed. *)
Inductive Walk (lim : Z) : list Entry -> gset string -> nat -> list Entry -> Prop :=
  | walk_end seen n : Walk lim [] seen n []
  | walk_full e rest seen n :
      lim <= Z.of_nat n -> Walk lim (e :: rest) seen n []
  | walk_skip e rest seen n kept :
      Z.of_nat n < lim ->
      ~ usable e \/ truthy (docIdE e) = false \/ docIdE e ∈ seen ->
      Walk lim rest seen n kept ->
      Walk lim (e :: rest) seen n kept
  | walk_keep e rest seen n kept :
      Z.of_nat n < lim ->
      usable e -> truthy (docIdE e) = true -> docIdE e ∉ seen ->
      Walk lim rest ({[ docIdE e ]} ∪ seen) (S n) kept ->
      Walk lim (e :: rest) seen n (e :: kept).

End RankProps.

Module RetrieveProps.

Import Js Middleware RankProps.

(** The embedding service answered with an error, a non-2xx status or a
    body without an embedding array. *)
Definition embeddingFailed (r : FetchResult) : Prop :=
  match r with
  | FetchJson (Some _) => False
  | _ => True
  end.

(** The query vector, when the answer carries a non-empty one. *)
Definition vectorOfFetch (r : FetchResult) : option (list Q) :=
  match r with
  | FetchJson (Some (x :: v)) => Some (x :: v)
  | _ => None
  end.

(** The answer to the embedding request of a retrieval. *)
Definition embeddingAnswer (o : Oracle) (rt : Runtime) (query : string)
  : FetchResult :=
  o O (FetchEmbedding (embedModel rt) (trim query)).

(** The vector matches gathered from the targets that answered. *)
Definition vectorHitsOf (o : Oracle) (rt : Runtime) (targets : list Target)
    (query : string) (topK : option Z) : list Entry :=
  match vectorOfFetch (embeddingAnswer o rt query) with
  | Some v => fst (run o 1 (queryTargets (limitOf rt topK) v targets []))
  | None => []
  end.

(** The merged pool of a retrieval. *)
Definition poolOf (o : Oracle) (rt : Runtime) (floppy : Floppy)
    (targets : list Target) (query : string) (topK : option Z) : list Entry :=
  aggregate floppy (trim query) (vectorHitsOf o rt targets query topK).

(** The behaviour C1 asks for: the result is what the two local passes
    give when the vector leg contributes nothing. *)
Definition returnsLocalMatches (o : Oracle) (rt : Runtime) (floppy : Floppy)
    (targets : list Target) (query : string) (topK : option Z) : Prop :=
  result o (retrieve rt floppy targets (Some query) topK)
  = finish floppy (limitOf rt topK) (trim query) [].

(** The behaviour C7 asks for, read literally: a returned entry scores at
    least as high as every pooled instance of its chunk. *)
Definition keepsHighestInstance (rs : list Result) (pool : list Entry) : Prop :=
  forall r e, r ∈ rs -> e ∈ pool -> docIdE e = doc_id r ->
              (keyOf e <= resultKey r)%Q.

(** The behaviour C5 asks for, in its weakest reading: the chunk is among
    the returned entries. *)
Definition returnsChunk (o : Oracle) (rt : Runtime) (floppy : Floppy)
    (targets : list Target) (query : string) (topK : option Z)
    (idx : nat) (k : KnowledgeChunk) : Prop :=
  exists r, r ∈ result o (retrieve rt floppy targets (Some query) topK)
            /\ doc_id r = chunkIdOf floppy idx k.

(** The identifier [i] of the query occurs in the chunk of index [idx] and
    in no other chunk. *)
Definition inExactlyOneChunk (floppy : Floppy) (i : string) (idx : nat) : Prop :=
  forall j k, knowledgeChunks floppy !! j = Some k ->
              (includes (toLowerCase (chunkTextRaw k)) i = true <-> j = idx).

End RetrieveProps.

Module SpecWords.

Import Js Middleware.

(** The tokenizer as the specification words it: a lowercase alphanumeric
    token of length > 2, [/[a-z0-9]{3,}/]. *)
Definition alnumTokenAt (l : list ascii) : option nat :=
  match l with
  | c :: rest =>
      if isAlnum c then
        let more := takeWhile isAlnum rest in
        if (2 <=? length more)%nat then Some (1 + length more)%nat else None
      else None
  | [] => None
  end.

(** The query tokens that survive the stop-word list. *)
Definition survivingTokens (query : string) : list string :=
  filter (fun t => t ∉ stopWords)
         (uniq (matchAll alnumTokenAt O (chars (toLowerCase query)))).

(** The lexical score the specification gives a chunk text, if any. *)
Definition specLexicalScore (query chunkText : string) : option Q :=
  let tokens := survivingTokens query in
  let matched := filter (fun t => includes (toLowerCase chunkText) t = true) tokens in
  match matched with
  | [] => None
  | _ => Some (Qmin (98 # 100)
                 ((6 # 10) + (4 # 10) * (inject_Z (Z.of_nat (length matched))
                                         / inject_Z (Z.of_nat (length tokens)))))
  end.

(** The chunks the specification scores, in chunk order, with their score. *)
Definition specLexicalPass (floppy : Floppy) (query : string) : list (string * Q) :=
  omap (fun p => option_map (pair (chunkIdOf floppy (fst p) (snd p)))
                   (specLexicalScore query (chunkTextRaw (snd p))))
       (imap pair (knowledgeChunks floppy)).

(** The chunks the code scores, in chunk order, with their score. *)
Definition codeLexicalPass (floppy : Floppy) (query : string) : list (string * Q) :=
  map (fun m => (m_id m, scoreKey m))
      (lexicalMatches floppy (queryCaseIdsLowerOf query) (uniqueTokensOf query)).

(** C2 as stated: both passes score the same chunks with equal scores. *)
Definition lexicalPassAsSpecified (floppy : Floppy) (query : string) : Prop :=
  Forall2 (fun a b => fst a = fst b /\ (snd a == snd b)%Q)
          (codeLexicalPass floppy query) (specLexicalPass floppy query).

End SpecWords.

(** ** Sample knowledge bases and environments *)

Module Samples.

Import Js Middleware.

Definition rt0 : Runtime := mkRuntime true true "nomic-embed-text:latest" 6.

Definition obj (i t : string) : KnowledgeChunk :=
  KObj (mkChunk (Some i) (Some t) None None None None None None).

Definition targets0 : list Target :=
  [mkTarget (Some "tenant-acme") (Some "floppy-kb1")].

Definition down : Err := mkErr (Some 503) "service unavailable".

(** The embedding service is down. *)
Definition embedDown : Oracle := fun _ c =>
  match c with
  | FetchEmbedding _ _ => FetchNotOk 503 "unavailable"
  | Query _ _ _ _ => Returned []
  | DeleteAll _ _ => Returned tt
  | Upsert _ _ _ => Returned tt
  | EnsureTenantIndex _ _ => Returned None
  end.

(** The embedding service answers; every Pinecone call fails. *)
Definition targetsDown : Oracle := fun _ c =>
  match c with
  | FetchEmbedding _ _ => FetchJson (Some [1 # 2; 1 # 3])
  | Query _ _ _ _ => Threw down
  | DeleteAll _ _ => Threw down
  | Upsert _ _ _ => Threw down
  | EnsureTenantIndex _ _ => Threw down
  end.

(** A target returns a match for chunk "c1" whose metadata has no text. *)
Definition textlessHit : Oracle := fun _ c =>
  match c with
  | FetchEmbedding _ _ => FetchJson (Some [1 # 2; 1 # 3])
  | Query _ _ _ _ =>
      Returned [mkMatch "v1" (Some (99 # 100)) (Some {[ "chunkId" := VStr "c1" ]})]
  | DeleteAll _ _ => Returned tt
  | Upsert _ _ _ => Returned tt
  | EnsureTenantIndex _ _ => Returned None
  end.

Definition catFloppy : Floppy := mkFloppy "kb1" None [obj "c1" "the cat sat"].

Definition casesFloppy : Floppy :=
  mkFloppy "kb1" None
    [obj "c0" "Case CS11111: printer jam"; obj "c1" "Case CS22222: login loop"].

Definition dogFloppy : Floppy := mkFloppy "kb1" None [obj "c1" "the dog barks"].

Definition blankFloppy : Floppy := mkFloppy "kb1" None [obj "c1" "   "].

End Samples.

(** * Part II: facts and theorems *)

(** ** Facts about the string primitives *)

Module JsFacts.

Import Js JsProps.

Lemma str_chars (s : string) : str (chars s) = s.
Proof. apply string_of_list_ascii_of_string. Qed.

Lemma chars_str (l : list ascii) : chars (str l) = l.
Proof. apply list_ascii_of_string_of_list_ascii. Qed.

Lemma length_chars (s : string) : length (chars s) = String.length s.
Proof. induction s as [|c s IH]; simpl; [reflexivity | now rewrite IH]. Qed.

Lemma length_str (l : list ascii) : String.length (str l) = length l.
Proof. now rewrite <- length_chars, chars_str. Qed.

Lemma chars_app (a b : string) : chars (a +:+ b) = chars a ++ chars b.
Proof. induction a as [|c a IH]; simpl; [reflexivity | now rewrite IH]. Qed.

Lemma len_app (a b : string) : len (a +:+ b) = len a + len b.
Proof.
  unfold len. rewrite <- !length_chars, chars_app, length_app. lia.
Qed.

Lemma len_nonneg (s : string) : 0 <= len s.
Proof. unfold len. lia. Qed.

Lemma truthy_len (s : string) : truthy s = true <-> 0 < len s.
Proof. destruct s; unfold len; simpl; split; intros; try lia; congruence. Qed.

Lemma truthy_chars (s : string) : truthy s = true <-> chars s <> [].
Proof. destruct s; simpl; split; intros; congruence. Qed.

Lemma dropWhile_length (p : ascii -> bool) (l : list ascii) :
  (length (dropWhile p l) <= length l)%nat.
Proof. induction l as [|c l IH]; simpl; [lia | destruct (p c); simpl; lia]. Qed.

Lemma trimChars_length (l : list ascii) : (length (trimChars l) <= length l)%nat.
Proof.
  unfold trimChars. rewrite length_rev.
  etransitivity; [apply dropWhile_length|]. rewrite length_rev.
  apply dropWhile_length.
Qed.

Lemma len_trim (s : string) : len (trim s) <= len s.
Proof.
  unfold len, trim. rewrite length_str, <- (length_chars s).
  pose proof (trimChars_length (chars s)). lia.
Qed.

Lemma dropWhile_head (p : ascii -> bool) (a : ascii) (l : list ascii) :
  p a = false -> dropWhile p (a :: l) = a :: l.
Proof. intros H. simpl. now rewrite H. Qed.

Lemma trimChars_tight (l : list ascii) : tightChars l -> trimChars l = l.
Proof.
  intros [(a & l1 & E1 & Ha) (b & l2 & E2 & Hb)]. unfold trimChars.
  rewrite E1, (dropWhile_head _ _ _ Ha), <- E1, E2, rev_app_distr. simpl.
  rewrite Hb. simpl. rewrite rev_involutive. reflexivity.
Qed.

Lemma trim_tight (s : string) : tight s -> trim s = s.
Proof. intros H. unfold trim. rewrite (trimChars_tight _ H). apply str_chars. Qed.

Lemma tight_truthy (s : string) : tight s -> truthy s = true.
Proof.
  intros [(a & l & E & _) _]. apply truthy_chars. rewrite E. discriminate.
Qed.

Lemma wordChars_tight (l : list ascii) : wordChars l -> tightChars l.
Proof.
  intros [Hne Hall]. split.
  - destruct l as [|a l]; [congruence|]. exists a, l. split; [reflexivity|].
    now inversion Hall.
  - destruct (exists_last Hne) as (l' & b & ->). exists b, l'. split; [reflexivity|].
    apply Forall_app in Hall as [_ Hb]. now inversion Hb.
Qed.

Lemma word_tight (s : string) : word s -> tight s.
Proof. apply wordChars_tight. Qed.

Lemma tight_app (a b : string) (sep : string) :
  tight a -> tight b -> tight (a +:+ sep +:+ b).
Proof.
  intros [(x & la & Ea & Hx) _] [_ (y & lb & Eb & Hy)]. unfold tight.
  rewrite !chars_app, Ea, Eb. split.
  - exists x, (la ++ chars sep ++ lb ++ [y]). split; [reflexivity | exact Hx].
  - exists y, ((x :: la) ++ chars sep ++ lb). split; [|exact Hy].
    now rewrite <- !app_assoc.
Qed.

Lemma join_cons (sep w : string) (ws : list string) :
  ws <> [] -> join sep (w :: ws) = w +:+ sep +:+ join sep ws.
Proof. destruct ws; [congruence | reflexivity]. Qed.

Lemma join_tight (sep : string) (ws : list string) :
  ws <> [] -> Forall word ws -> tight (join sep ws).
Proof.
  induction ws as [|w ws IH]; [congruence|]. intros _ Hall.
  inversion Hall as [|? ? Hw Hws]; subst.
  destruct ws as [|w' ws]; [now apply word_tight|].
  rewrite join_cons by discriminate. apply tight_app; [now apply word_tight|].
  apply IH; [discriminate | exact Hws].
Qed.

Lemma len_join_snoc (ws : list string) (w : string) :
  ws <> [] -> len (join " " (ws ++ [w])) = len (join " " ws) + 1 + len w.
Proof.
  induction ws as [|a ws IH]; [congruence|]. intros _.
  destruct ws as [|b ws].
  - simpl. rewrite !len_app. change (len " ") with 1. lia.
  - change ((a :: b :: ws) ++ [w]) with (a :: ((b :: ws) ++ [w])).
    rewrite (join_cons _ a ((b :: ws) ++ [w])) by (simpl; discriminate).
    rewrite (join_cons _ a (b :: ws)) by discriminate.
    rewrite !len_app, IH by discriminate. change (len " ") with 1. lia.
Qed.

Lemma len_join_head (w : string) (ws : list string) :
  len w <= len (join " " (w :: ws)).
Proof.
  destruct ws as [|b ws]; [simpl; lia|].
  rewrite join_cons by discriminate. rewrite !len_app.
  pose proof (len_nonneg (join " " (b :: ws))). pose proof (len_nonneg " "). lia.
Qed.

Lemma splitWords_words (cur l : list ascii) :
  Forall (fun c => isWhiteSpace c = false) cur ->
  Forall word (splitWords cur l).
Proof.
  revert cur. induction l as [|c l IH]; intros cur Hcur; simpl.
  - destruct cur as [|a cur]; [constructor|]. constructor; [|constructor].
    unfold word. rewrite chars_str. split.
    + intros E. apply (f_equal (@length ascii)) in E. rewrite length_rev in E.
      discriminate.
    + apply Forall_rev. exact Hcur.
  - destruct (isWhiteSpace c) eqn:Hc.
    + destruct cur as [|a cur]; [apply IH; constructor|].
      constructor; [|apply IH; constructor].
      unfold word. rewrite chars_str. split.
      * intros E. apply (f_equal (@length ascii)) in E. rewrite length_rev in E.
        discriminate.
      * apply Forall_rev. exact Hcur.
    + apply IH. constructor; assumption.
Qed.

End JsFacts.

(** ** The packing loop of the chunker *)

Module KnowledgeFacts.

Import Js JsProps JsFacts Knowledge ChunkProps.

Lemma word_len (w : string) : word w -> 1 <= len w.
Proof.
  intros [Hne _]. unfold len. rewrite <- length_chars.
  destruct (chars w); [congruence | simpl; lia].
Qed.

Section Packing.

Variable size : Z.
Variable ws : list string.

Local Abbreviation Inv0 := (ChunkProps.Inv0 size ws).
Local Abbreviation Inv := (ChunkProps.Inv size ws).
Local Abbreviation fits := (ChunkProps.fits size ws).
Local Abbreviation token := (ChunkProps.token ws).

Lemma current_tight (st : Pack) :
  Inv0 st -> current st <> [] -> tight (join " " (current st)).
Proof.
  intros H Hne. apply join_tight; [exact Hne|].
  eapply Forall_impl; [apply (inv_tokens _ H)|]. now intros w [Hw _].
Qed.

Lemma pushCurrent_nonempty (st : Pack) :
  Inv0 st -> current st <> [] ->
  pushCurrent st = mkPack (chunks st ++ [join " " (current st)]) [] 0.
Proof.
  intros H Hne. pose proof (current_tight st H Hne) as Ht.
  unfold pushCurrent. destruct (current st) as [|w cur] eqn:E; [congruence|].
  rewrite (trim_tight _ Ht), (tight_truthy _ Ht). reflexivity.
Qed.

Lemma current_fits (st : Pack) :
  Inv0 st -> current st <> [] -> fits (join " " (current st)).
Proof.
  intros H Hne. pose proof (inv_len _ H) as Hl. pose proof (inv_room _ H) as Hr.
  pose proof (inv_tokens _ H) as Ht.
  destruct (current st) as [|w [|w' cur]]; [congruence| |].
  - simpl. inversion Ht as [|? ? [_ Hin] _]; subst.
    destruct (Z_le_gt_dec (len w) size); [left; lia | right; split; [exact Hin | lia]].
  - left. lia.
Qed.

Lemma current_length_pos (st : Pack) :
  Inv0 st -> current st <> [] -> 1 <= currentLength st.
Proof.
  intros H Hne. pose proof (inv_len _ H) as Hl. pose proof (inv_tokens _ H) as Ht.
  destruct (current st) as [|w cur]; [congruence|].
  inversion Ht as [|? ? [Hw _] _]; subst.
  pose proof (word_len _ Hw). pose proof (len_join_head w cur). lia.
Qed.

Lemma pushCurrent_inv (st : Pack) : Inv0 st -> Inv0 (pushCurrent st).
Proof.
  intros H. destruct (decide (current st = [])) as [E|Hne].
  { unfold pushCurrent. now rewrite E. }
  rewrite (pushCurrent_nonempty st H Hne).
  constructor; simpl; try easy.
  - apply Forall_app. split; [apply (inv_chunks _ H)|].
    constructor; [now apply current_fits | constructor].
  - apply Forall_app. split; [apply (inv_tight _ H)|].
    constructor; [now apply current_tight | constructor].
  - intros before prev tail E.
    change (before ++ [prev; tail]) with (before ++ [prev] ++ [tail]) in E.
    rewrite app_assoc in E. apply app_inj_tail in E as [E1 E2]. subst tail.
    destruct (current st) as [|w cur] eqn:Ec; [congruence|].
    assert (Hlast : last (chunks st) = Some prev) by (rewrite E1; apply last_snoc).
    pose proof (inv_next _ H prev w cur Hlast Ec).
    pose proof (len_join_head w cur). lia.
Qed.

Lemma packWord_inv (st : Pack) (w : string) :
  Inv st -> token w -> Inv (packWord size st w).
Proof.
  intros [H Hinit] Hw. unfold packWord.
  destruct (decide (current st = [])) as [E|Hne].
  - (* the first word *)
    pose proof (inv_len _ H) as Hl. rewrite E in Hl. rewrite E, Hl. simpl.
    rewrite andb_false_r. rewrite E. simpl. split; [|discriminate].
    constructor; simpl; rewrite ?(Hinit E); try easy.
    + constructor; [exact Hw | constructor].
    + lia.
    + intros before prev tail E'. destruct before; discriminate.
  - pose proof (current_length_pos st H Hne) as Hpos.
    assert (Hz : (currentLength st =? 0) = false) by (apply Z.eqb_neq; lia).
    rewrite Hz. rewrite (bool_decide_eq_false_2 _ Hne). simpl negb.
    rewrite andb_true_r.
    destruct (Z.gtb_spec (currentLength st + (len w + 1)) size) as [Hgt|Hle].
    + (* flush, then start a new buffer with [w] *)
      rewrite (pushCurrent_nonempty st H Hne). simpl.
      pose proof (pushCurrent_inv st H) as H'.
      rewrite (pushCurrent_nonempty st H Hne) in H'.
      split; [|discriminate].
      constructor; simpl; try easy.
      * apply (inv_chunks _ H').
      * apply (inv_tight _ H').
      * constructor; [exact Hw | constructor].
      * lia.
      * intros c w0 rest Hlast Ew. injection Ew as <- <-.
        rewrite last_snoc in Hlast. injection Hlast as <-.
        pose proof (inv_len _ H) as Hl.
        destruct (current st) as [|a cur]; [congruence|].
        lia.
      * apply (inv_pair _ H').
    + (* append to the buffer *)
      split; [|destruct (current st); simpl; [congruence | discriminate]].
      pose proof (inv_len _ H) as Hl. pose proof (inv_tokens _ H) as Ht.
      constructor; simpl.
      * apply (inv_chunks _ H).
      * apply (inv_tight _ H).
      * apply Forall_app. split; [exact Ht | constructor; [exact Hw | constructor]].
      * rewrite (len_join_snoc _ _ Hne).
        destruct (current st) as [|a cur]; [congruence|]. simpl app. cbv iota. lia.
      * destruct (current st) as [|a cur]; [congruence|].
        destruct cur; simpl; lia.
      * intros c w0 rest Hlast Ew.
        destruct (current st) as [|a cur] eqn:Ec; [congruence|].
        simpl in Ew. injection Ew as <- _.
        exact (inv_next _ H c a cur Hlast Ec).
      * apply (inv_pair _ H).
Qed.

Lemma foldl_inv (l : list string) (st : Pack) :
  Inv st -> Forall token l -> Inv (foldl (packWord size) st l).
Proof.
  revert st. induction l as [|w l IH]; intros st H Hl; simpl; [exact H|].
  inversion Hl; subst. apply IH; [now apply packWord_inv | assumption].
Qed.

Lemma init_inv : Inv (mkPack [] [] 0).
Proof.
  split; [|reflexivity]. constructor; simpl; try easy.
  intros before prev tail E. destruct before; discriminate.
Qed.

(** The chunks that leave the packing loop. *)
Lemma packWords_inv (l : list string) :
  Forall token l ->
  let cs := packWords size l in
  Forall fits cs /\ Forall tight cs /\
  (forall before prev tail,
      cs = before ++ [prev; tail] -> size <= len prev + 1 + len tail).
Proof.
  intros Hl. unfold packWords.
  destruct (foldl_inv l _ init_inv Hl) as [H _].
  pose proof (pushCurrent_inv _ H) as H'.
  repeat split; [apply (inv_chunks _ H') | apply (inv_tight _ H') | apply (inv_pair _ H')].
Qed.

End Packing.

End KnowledgeFacts.

(** ** chunkText and buildChunkObjects: C3, C4, C6 *)

Module ChunkTheorems.

Import Js JsProps JsFacts Knowledge ChunkProps KnowledgeFacts.

Lemma tokensOf_tokens (input : string) :
  Forall (token (tokensOf input)) (tokensOf input).
Proof.
  apply Forall_forall. intros w Hin. split; [|exact Hin].
  pose proof (splitWords_words [] (chars (normalizeWhitespace input))
                ltac:(constructor)) as Hall.
  rewrite Forall_forall in Hall. apply Hall. exact Hin.
Qed.

Lemma parseIntOr_pos (n d : Z) : 0 < n -> parseIntOr (Some n) d = n.
Proof. intros H. unfold parseIntOr. destruct (Z.eqb_spec n 0); [lia | reflexivity]. Qed.

(** [chunkText] is the closing merge applied to the packed chunks. *)
Lemma chunkText_unfold (d : Defaults) (input : string) (options : Options) :
  chunkText d input options = [] \/
  chunkText d input options =
    mergeTail (minSizeOf d options)
      (packWords (parseIntOr (chunkSize options) (DEFAULT_CHUNK_SIZE d))
                 (tokensOf input)).
Proof.
  unfold chunkText, tokensOf, minSizeOf.
  destruct (truthy (normalizeWhitespace input)); simpl; [|now left].
  destruct (wordsOf (normalizeWhitespace input)) eqn:E; [now left | now right].
Qed.

Lemma rev_two {A : Type} (l before : list A) (tail prev : A) :
  rev l = tail :: prev :: before -> l = rev before ++ [prev; tail].
Proof.
  intros E. rewrite <- (rev_involutive l), E. simpl.
  now rewrite <- app_assoc.
Qed.

(** The shape of the result of the closing merge. *)
Lemma mergeTail_cases (minSize : Z) (cs : list string) :
  Forall tight cs ->
  (mergeTail minSize cs = cs /\
   (forall before prev tail, cs = before ++ [prev; tail] -> minSize <= len tail))
  \/
  (exists before prev tail,
      cs = before ++ [prev; tail] /\ len tail < minSize /\
      mergeTail minSize cs = before ++ [prev +:+ " " +:+ tail]).
Proof.
  intros Ht. unfold mergeTail.
  destruct (rev cs) as [|tail [|prev before]] eqn:E.
  - left. split; [reflexivity|]. intros b p t ->.
    rewrite rev_app_distr in E. discriminate.
  - left. split; [reflexivity|]. intros b p t ->.
    rewrite rev_app_distr in E. discriminate.
  - apply rev_two in E. destruct (Z.ltb_spec (len tail) minSize) as [Hlt|Hge].
    + right. exists (rev before), prev, tail. repeat split; [exact E | exact Hlt |].
      f_equal. f_equal. apply trim_tight.
      rewrite E in Ht. apply Forall_app in Ht as [_ Ht].
      inversion Ht as [|? ? Hp Ht']; subst. inversion Ht' as [|? ? Htl _]; subst.
      now apply tight_app.
    + left. split; [reflexivity|]. intros b p t E'. rewrite E in E'.
      change [prev; tail] with ([prev] ++ [tail]) in E'.
      change [p; t] with ([p] ++ [t]) in E'.
      rewrite !app_assoc in E'. apply app_inj_tail in E' as [_ <-]. exact Hge.
Qed.


Lemma lookup_snoc_cases {A : Type} (l : list A) (x c : A) (i : nat) :
  (l ++ [x]) !! i = Some c ->
  l !! i = Some c \/ (i = length l /\ c = x).
Proof.
  intros H. apply lookup_app_Some in H as [H|[Hle H]]; [now left|].
  right. apply list_lookup_singleton_Some in H as [H1 H2]. split; [lia | congruence].
Qed.

(** C3, as the code has it: every chunk is within [chunkSize] or is a
    single over-long token, except that the last chunk may be the closing
    merge [prev + " " + tail] of such a chunk with a tail shorter than
    [minChunkSize]; its length is then at most [len prev + minChunkSize]. *)
Theorem chunkText_within_limit_up_to_tail
    (d : Defaults) (input : string) (options : Options) (n : Z) :
  chunkSize options = Some n -> 0 < n ->
  forall (i : nat) (c : string),
    chunkText d input options !! i = Some c ->
    fits n (tokensOf input) c \/
    (S i = length (chunkText d input options) /\
     exists prev tail,
       c = prev +:+ " " +:+ tail /\
       fits n (tokensOf input) prev /\
       len tail < minSizeOf d options /\
       len c <= len prev + minSizeOf d options).
Proof.
  intros Hn Hpos i c Hi.
  destruct (chunkText_unfold d input options) as [E|E];
    rewrite E in Hi |- *; [discriminate|].
  rewrite Hn, (parseIntOr_pos n _ Hpos) in Hi |- *.
  destruct (packWords_inv n (tokensOf input) (tokensOf input)
              (tokensOf_tokens input)) as (Hfits & Htight & _).
  destruct (mergeTail_cases (minSizeOf d options) _ Htight)
    as [[Em _]|(before & prev & tail & Ecs & Hlt & Em)].
  - rewrite Em in Hi. left. exact (Forall_lookup_1 _ _ _ _ Hfits Hi).
  - rewrite Em in Hi |- *. rewrite Ecs in Hfits.
    apply Forall_app in Hfits as [Hb Hpt].
    apply lookup_snoc_cases in Hi as [Hi|[-> ->]].
    + left. exact (Forall_lookup_1 _ _ _ _ Hb Hi).
    + right. split; [rewrite length_app; simpl; lia|].
      exists prev, tail. repeat split; [now inversion Hpt | exact Hlt |].
      rewrite !len_app. change (len " ") with 1. lia.
Qed.

Lemma chunkText_within_limit_up_to_tail_witness :
  let o := mkOptions (Some 10) (Some 5) None None false in
  fits 10 (tokensOf "aaaaaaaaa bbb") "aaaaaaaaa bbb" \/
  (1%nat = length (chunkText stockDefaults "aaaaaaaaa bbb" o) /\
   exists prev tail,
     "aaaaaaaaa bbb" = prev +:+ " " +:+ tail /\
     fits 10 (tokensOf "aaaaaaaaa bbb") prev /\
     len tail < minSizeOf stockDefaults o /\
     len "aaaaaaaaa bbb" <= len prev + minSizeOf stockDefaults o).
Proof.
  intros o.
  apply (chunkText_within_limit_up_to_tail stockDefaults "aaaaaaaaa bbb" o 10
           eq_refl ltac:(lia) 0%nat "aaaaaaaaa bbb").
  vm_compute. reflexivity.
Defined.

(** C3 as stated fails: with [chunkSize = 10] and [minChunkSize = 5] the text
    packs into "aaaaaaaaa" and "bbb", and the closing merge returns the
    13-character chunk "aaaaaaaaa bbb", which is no single token. *)
Lemma chunkText_merged_tail_exceeds_limit :
  ~ allWithinLimit stockDefaults "aaaaaaaaa bbb"
      (mkOptions (Some 10) (Some 5) None None false) 10.
Proof.
  unfold allWithinLimit.
  replace (chunkText _ _ _) with ["aaaaaaaaa bbb"] by (vm_compute; reflexivity).
  replace (tokensOf _) with ["aaaaaaaaa"; "bbb"] by (vm_compute; reflexivity).
  intros H. inversion H as [|? ? [Hle|[Hin _]] _]; subst.
  - vm_compute in Hle. apply Hle. reflexivity.
  - apply list_elem_of_In in Hin. simpl in Hin.
    destruct Hin as [Hin|[Hin|[]]]; discriminate.
Qed.

(** C4, as the code has it: only the tail is protected.  When
    [minChunkSize <= chunkSize] and more than one chunk is returned, the
    last chunk is not shorter than [minChunkSize]. *)
Theorem chunkText_last_chunk_min
    (d : Defaults) (input : string) (options : Options) (n m : Z) :
  chunkSize options = Some n -> minChunkSize options = Some m ->
  0 < m -> m <= n ->
  (1 < length (chunkText d input options))%nat ->
  forall c, last (chunkText d input options) = Some c -> m <= len c.
Proof.
  intros Hn Hm Hpos Hmn Hlen c Hlast.
  destruct (chunkText_unfold d input options) as [E|E];
    rewrite E in Hlen, Hlast; [simpl in Hlen; lia|].
  unfold minSizeOf in Hlen, Hlast.
  rewrite Hn, Hm, !parseIntOr_pos in Hlen, Hlast by lia.
  destruct (packWords_inv n (tokensOf input) (tokensOf input)
              (tokensOf_tokens input)) as (_ & Htight & Hpair).
  destruct (mergeTail_cases m _ Htight)
    as [[Em Hmin]|(before & prev & tail & Ecs & Hlt & Em)];
    rewrite Em in Hlen, Hlast.
  - destruct (rev (packWords n (tokensOf input))) as [|tail [|prev before]] eqn:Er.
    + apply (f_equal (@length string)) in Er. rewrite length_rev in Er.
      simpl in Er. lia.
    + apply (f_equal (@length string)) in Er. rewrite length_rev in Er.
      simpl in Er. lia.
    + apply rev_two in Er. rewrite Er in Hlast.
      change [prev; tail] with ([prev] ++ [tail]) in Hlast.
      rewrite app_assoc, last_snoc in Hlast. injection Hlast as <-.
      exact (Hmin _ _ _ Er).
  - rewrite last_snoc in Hlast. injection Hlast as <-.
    pose proof (Hpair _ _ _ Ecs). rewrite !len_app. change (len " ") with 1. lia.
Qed.

Lemma chunkText_last_chunk_min_witness :
  8 <= len "bbbbbbbbb ccccc".
Proof.
  apply (chunkText_last_chunk_min stockDefaults "aaaa bbbbbbbbb ccccc"
           (mkOptions (Some 10) (Some 8) None None false) 10 8
           eq_refl eq_refl ltac:(lia) ltac:(lia)).
  - vm_compute. lia.
  - vm_compute. reflexivity.
Defined.

(** C4 as stated fails: with [chunkSize = 10] and [minChunkSize = 8] the
    first of three chunks is the 4-character "aaaa". *)
Lemma chunkText_short_leading_chunk :
  ~ noShortChunk stockDefaults "aaaa bbbbbbbbb cccccccccc"
      (mkOptions (Some 10) (Some 8) None None false) 8.
Proof.
  unfold noShortChunk.
  replace (chunkText _ _ _) with ["aaaa"; "bbbbbbbbb"; "cccccccccc"]
    by (vm_compute; reflexivity).
  intros H. specialize (H "aaaa" ltac:(constructor) ltac:(vm_compute; reflexivity)).
  discriminate.
Qed.

(** C6: with [useStableIds] the identifiers do not depend on the random
    source, and the chunk of index [i] is named [baseId:i+1]. *)
Theorem buildChunkObjects_stable_ids
    (d : Defaults) (uuid1 uuid2 : nat -> string) (input : string)
    (source : Source) (options : Options) :
  useStableIds options = true ->
  map id (buildChunkObjects d uuid1 input source options)
  = map id (buildChunkObjects d uuid2 input source options)
  /\ forall (i : nat) (c : Chunk),
       buildChunkObjects d uuid1 input source options !! i = Some c ->
       id c = Some (orStr (baseId options) (src_id source) +:+ ":" +:+ ofNat (i + 1)).
Proof.
  intros Hs. unfold buildChunkObjects. rewrite Hs. split.
  - rewrite !fmap_imap. reflexivity.
  - intros i c Hi. rewrite list_lookup_imap in Hi.
    destruct (_ !! i) as [seg|]; [|discriminate].
    simpl in Hi. injection Hi as <-. reflexivity.
Qed.

Lemma buildChunkObjects_stable_ids_witness :
  let o := mkOptions (Some 10) (Some 8) None (Some "f1:manual") true in
  let s := mkSource "f1" "manual" "Manual knowledge" ∅ in
  map id (buildChunkObjects stockDefaults (fun _ => "u1") "aaaa bbbbbbbbb" s o)
  = map id (buildChunkObjects stockDefaults (fun _ => "u2") "aaaa bbbbbbbbb" s o)
  /\ forall (i : nat) (c : Chunk),
       buildChunkObjects stockDefaults (fun _ => "u1") "aaaa bbbbbbbbb" s o !! i = Some c ->
       id c = Some (orStr (baseId o) (src_id s) +:+ ":" +:+ ofNat (i + 1)).
Proof.
  intros o s.
  exact (buildChunkObjects_stable_ids stockDefaults (fun _ => "u1") (fun _ => "u2")
           "aaaa bbbbbbbbb" s o eq_refl).
Defined.

End ChunkTheorems.

(** ** The sort and the de-duplicating walk *)

Module RankFacts.

Import Js JsFacts Middleware RankProps.

Lemma before_true (a b : Entry) : before a b = true <-> (keyOf b < keyOf a)%Q.
Proof.
  unfold before, keyOf. rewrite negb_true_iff, <- not_true_iff_false, Qle_bool_iff.
  split; [apply Qnot_le_lt | apply Qlt_not_le].
Qed.

Lemma before_false (a b : Entry) : before a b = false <-> (keyOf a <= keyOf b)%Q.
Proof. unfold before, keyOf. rewrite negb_false_iff. apply Qle_bool_iff. Qed.

Lemma insertEntry_elem (e x : Entry) (l : list Entry) :
  x ∈ insertEntry e l <-> x = e \/ x ∈ l.
Proof.
  induction l as [|y l IH]; simpl.
  - rewrite list_elem_of_singleton, elem_of_nil. tauto.
  - destruct (before y e); rewrite !elem_of_cons; [rewrite IH|]; tauto.
Qed.

Lemma sortEntries_elem (x : Entry) (l : list Entry) :
  x ∈ sortEntries l <-> x ∈ l.
Proof.
  induction l as [|y l IH]; simpl; [reflexivity|].
  rewrite insertEntry_elem, elem_of_cons, IH. reflexivity.
Qed.

Lemma insertEntry_sorted (e : Entry) (l : list Entry) :
  StronglySorted descending l -> StronglySorted descending (insertEntry e l).
Proof.
  induction 1 as [|y l Hs IH Hy]; simpl; [repeat constructor|].
  destruct (before y e) eqn:Hb.
  - apply before_true in Hb. constructor; [exact IH|].
    apply Forall_forall. intros x Hx. apply insertEntry_elem in Hx as [->|Hx].
    + apply Qlt_le_weak. exact Hb.
    + rewrite Forall_forall in Hy. now apply Hy.
  - apply before_false in Hb. constructor; [now constructor|].
    constructor; [exact Hb|].
    eapply Forall_impl; [exact Hy|]. intros x Hx. unfold descending in *.
    eapply Qle_trans; [exact Hx | exact Hb].
Qed.

Lemma sortEntries_sorted (l : list Entry) : StronglySorted descending (sortEntries l).
Proof.
  induction l as [|e l IH]; simpl; [constructor | now apply insertEntry_sorted].
Qed.

(** An entry that beats all the others comes first. *)
Lemma sortEntries_top (l1 l2 : list Entry) (d : Entry) :
  (forall x, x ∈ l1 ++ l2 -> (keyOf x < keyOf d)%Q) ->
  sortEntries (l1 ++ d :: l2) = d :: sortEntries (l1 ++ l2).
Proof.
  induction l1 as [|a l1 IH]; intros Hlt; simpl.
  - destruct (sortEntries l2) as [|x rest] eqn:E; [reflexivity|]. simpl.
    assert (Hx : x ∈ l2) by (apply sortEntries_elem; rewrite E; left).
    specialize (Hlt x Hx).
    destruct (before x d) eqn:Hb; [|reflexivity].
    apply before_true in Hb. exfalso. eapply Qlt_irrefl, Qlt_trans; eassumption.
  - rewrite IH by (intros x Hx; apply Hlt; now right). simpl.
    assert (Hb : before d a = true) by (apply before_true, Hlt; left).
    now rewrite Hb.
Qed.

Lemma collect_walk (lim : Z) (L : list Entry) :
  forall (seen : gset string) (res : list Result),
  exists kept, collect lim L seen res = res ++ map toResult kept
               /\ Walk lim L seen (length res) kept.
Proof.
  induction L as [|e rest IH]; intros seen res; simpl.
  - exists []. split; [now rewrite app_nil_r | constructor].
  - destruct (Z.geb_spec (Z.of_nat (length res)) lim) as [Hfull|Hroom].
    { exists []. split; [now rewrite app_nil_r | now constructor]. }
    destruct (truthy (snippetOfEntry e)) eqn:Hs; simpl.
    2:{ destruct (IH seen res) as (kept & E & W). exists kept. split; [exact E|].
        apply walk_skip; [lia | left; unfold usable; congruence | exact W]. }
    destruct (truthy (docIdOf (match_ e))) eqn:Hd; simpl.
    2:{ destruct (IH seen res) as (kept & E & W). exists kept. split; [exact E|].
        apply walk_skip; [lia | right; left; exact Hd | exact W]. }
    destruct (bool_decide_reflect (docIdOf (match_ e) ∈ seen)) as [Hin|Hout].
    { destruct (IH seen res) as (kept & E & W). exists kept. split; [exact E|].
      apply walk_skip; [lia | right; right; exact Hin | exact W]. }
    destruct (IH ({[ docIdOf (match_ e) ]} ∪ seen) (res ++ [toResult e]))
      as (kept & E & W).
    exists (e :: kept). split.
    + rewrite E, <- app_assoc. reflexivity.
    + rewrite length_app in W. simpl in W. replace (length res + 1)%nat with (S (length res)) in W by lia.
      apply walk_keep; [lia | exact Hs | exact Hd | exact Hout | exact W].
Qed.

Section WalkFacts.

Variable lim : Z.

Lemma walk_sublist L seen n kept : Walk lim L seen n kept -> kept `sublist_of` L.
Proof.
  induction 1; [constructor | apply sublist_nil_l | now apply sublist_cons | now apply sublist_skip].
Qed.

Lemma walk_fresh L seen n kept :
  Walk lim L seen n kept ->
  Forall (fun e => usable e /\ truthy (docIdE e) = true /\ docIdE e ∉ seen) kept.
Proof.
  induction 1 as [| | |e rest seen n kept Hn Hu Ht Hout W IH]; try constructor; auto.
  eapply Forall_impl; [exact IH|]. intros x (? & ? & Hx). repeat split; auto.
  intros Hin. apply Hx, elem_of_union_r, Hin.
Qed.

Lemma walk_nodup L seen n kept :
  Walk lim L seen n kept -> NoDup (map docIdE kept).
Proof.
  induction 1 as [| | |e rest seen n kept Hn Hu Ht Hout W IH]; simpl;
    try constructor; auto.
  intros Hin. apply list_elem_of_fmap in Hin as (x & Ex & Hx).
  pose proof (walk_fresh _ _ _ _ W) as Hf. rewrite Forall_forall in Hf.
  destruct (Hf x Hx) as (_ & _ & Hnot). apply Hnot. rewrite <- Ex.
  apply elem_of_union_l, elem_of_singleton. reflexivity.
Qed.

Lemma walk_length L seen n kept :
  Walk lim L seen n kept -> Z.of_nat (n + length kept) <= Z.max lim (Z.of_nat n).
Proof.
  induction 1 as [| | |e rest seen n kept Hn Hu Ht Hout W IH]; simpl; try lia.
Qed.

(** A kept entry is a best usable instance of its document identifier. *)
Lemma walk_best L seen n kept :
  Walk lim L seen n kept -> StronglySorted descending L ->
  forall s x, s ∈ kept -> x ∈ L -> usable x -> docIdE x = docIdE s ->
              (keyOf x <= keyOf s)%Q.
Proof.
  induction 1 as [| |e0 rest seen n kept Hn Hskip W IH
                    |e0 rest seen n kept Hn Hu Ht Hout W IH];
    intros Hsorted s x Hs Hx Hux Hid.
  - inversion Hs.
  - inversion Hs.
  - apply StronglySorted_inv in Hsorted as [Hrest Hhead].
    apply elem_of_cons in Hx as [->|Hx]; [|now apply (IH Hrest s x)].
    pose proof (walk_fresh _ _ _ _ W) as Hf. rewrite Forall_forall in Hf.
    destruct (Hf s Hs) as (_ & Hts & Hns). rewrite <- Hid in Hts, Hns.
    destruct Hskip as [Hno|[Hno|Hno]]; [contradiction | congruence | contradiction].
  - apply StronglySorted_inv in Hsorted as [Hrest Hhead].
    rewrite Forall_forall in Hhead.
    apply elem_of_cons in Hs as [->|Hs].
    + apply elem_of_cons in Hx as [->|Hx]; [apply Qle_refl | now apply Hhead].
    + apply elem_of_cons in Hx as [->|Hx]; [|now apply (IH Hrest s x)].
      pose proof (walk_fresh _ _ _ _ W) as Hf. rewrite Forall_forall in Hf.
      destruct (Hf s Hs) as (_ & _ & Hns). exfalso. apply Hns. rewrite Hid.
      apply elem_of_union_l, elem_of_singleton. reflexivity.
Qed.

End WalkFacts.

End RankFacts.

(** ** Running a retrieval *)

Module RetrieveFacts.

Import Js JsFacts Middleware RankProps RetrieveProps RankFacts.

Lemma run_bind {A B : Type} (o : Oracle) (p : Prog A) (f : A -> Prog B) :
  forall n,
    run o n (bind p f) =
    let '(a, t1) := run o n p in
    let '(b, t2) := run o (n + length t1) (f a) in
    (b, t1 ++ t2).
Proof.
  induction p as [a|c k IH]; intros n; simpl.
  - rewrite Nat.add_0_r. destruct (run o n (f a)). reflexivity.
  - rewrite IH. destruct (run o (S n) (k (o n c))) as [a t1]. simpl.
    replace (n + S (length t1))%nat with (S (n + length t1)) by lia.
    destruct (run o (S (n + length t1)) (f a)). reflexivity.
Qed.

(** What a retrieval returns and which commands it issues. *)
Lemma retrieve_run (o : Oracle) (rt : Runtime) (floppy : Floppy)
    (targets : list Target) (query : string) (topK : option Z) :
  run o O (retrieve rt floppy targets (Some query) topK) =
  if truthy (trim query) then
    match vectorOfFetch (embeddingAnswer o rt query) with
    | Some v =>
        let '(hits, t) := run o 1 (queryTargets (limitOf rt topK) v targets []) in
        (finish floppy (limitOf rt topK) (trim query) hits,
         FetchEmbedding (embedModel rt) (trim query) :: t)
    | None => ([], [FetchEmbedding (embedModel rt) (trim query)])
    end
  else ([], []).
Proof.
  unfold retrieve, embeddingAnswer.
  destruct (truthy (trim query)) eqn:Ht; simpl; [|reflexivity].
  destruct (o O (FetchEmbedding (embedModel rt) (trim query)))
    as [e|status body|[[|x v]|]]; simpl; try reflexivity.
  rewrite run_bind.
  destruct (run o 1 (queryTargets (limitOf rt topK) (x :: v) targets [])) as [hits t].
  simpl. now rewrite app_nil_r.
Qed.

Lemma retrieve_result (o : Oracle) (rt : Runtime) (floppy : Floppy)
    (targets : list Target) (query : string) (topK : option Z) :
  result o (retrieve rt floppy targets (Some query) topK) = [] \/
  result o (retrieve rt floppy targets (Some query) topK) =
    rank (limitOf rt topK) (poolOf o rt floppy targets query topK).
Proof.
  unfold result, poolOf, vectorHitsOf. rewrite retrieve_run.
  destruct (truthy (trim query)); [|now left].
  destruct (vectorOfFetch (embeddingAnswer o rt query)) as [v|]; [|now left].
  destruct (run o 1 (queryTargets (limitOf rt topK) v targets [])) as [hits t].
  right. reflexivity.
Qed.

Lemma retrieve_result_ok (o : Oracle) (rt : Runtime) (floppy : Floppy)
    (targets : list Target) (query : string) (topK : option Z) :
  truthy (trim query) = true ->
  vectorOfFetch (embeddingAnswer o rt query) <> None ->
  result o (retrieve rt floppy targets (Some query) topK)
  = rank (limitOf rt topK) (poolOf o rt floppy targets query topK).
Proof.
  intros Ht Hv. unfold result, poolOf, vectorHitsOf. rewrite retrieve_run, Ht.
  destruct (vectorOfFetch (embeddingAnswer o rt query)) as [v|]; [|congruence].
  destruct (run o 1 (queryTargets (limitOf rt topK) v targets [])) as [hits t].
  reflexivity.
Qed.

Lemma queryTargets_all_fail (o : Oracle) (limit : Z) (v : list Q)
    (targets : list Target) :
  (forall n i ns lim w, exists e, o n (Query i ns lim w) = Threw e) ->
  forall acc n, fst (run o n (queryTargets limit v targets acc)) = acc.
Proof.
  intros Hfail. induction targets as [|t ts IH]; intros acc n; simpl; [reflexivity|].
  match goal with |- context [o n (Query ?i ?ns ?l ?w)] =>
    destruct (Hfail n i ns l w) as (e & ->) end.
  specialize (IH acc (S n)).
  destruct (run o (S n) (queryTargets limit v ts acc)) as [a tr]. exact IH.
Qed.

(** When every target fails no vector match is gathered. *)
Lemma vectorHitsOf_all_fail (o : Oracle) (rt : Runtime) (targets : list Target)
    (query : string) (topK : option Z) :
  (forall n i ns lim w, exists e, o n (Query i ns lim w) = Threw e) ->
  vectorHitsOf o rt targets query topK = [].
Proof.
  intros Hfail. unfold vectorHitsOf.
  destruct (vectorOfFetch (embeddingAnswer o rt query)) as [v|]; [|reflexivity].
  apply (queryTargets_all_fail o _ v targets Hfail).
Qed.

(** Failing targets are skipped: once the query is embedded, the local
    matches are returned even if every target fails. *)
Lemma retrieve_targets_down_returns_local_matches (o : Oracle) (rt : Runtime)
    (floppy : Floppy) (targets : list Target) (query : string) (topK : option Z) :
  truthy (trim query) = true ->
  vectorOfFetch (embeddingAnswer o rt query) <> None ->
  (forall n i ns lim w, exists e, o n (Query i ns lim w) = Threw e) ->
  returnsLocalMatches o rt floppy targets query topK.
Proof.
  intros Ht Hv Hfail. unfold returnsLocalMatches.
  rewrite (retrieve_result_ok o rt floppy targets query topK Ht Hv).
  unfold poolOf. now rewrite (vectorHitsOf_all_fail o rt targets query topK Hfail).
Qed.

(** The provider handed to the chat session is the retrieval function. *)
Lemma provider_is_retrieve (rt : Runtime) (floppy : Floppy) (targets : list Target)
    (p : option string -> option Z -> Prog (list Result)) :
  createPineconeMemoryProvider rt (Some floppy) targets = Some p ->
  p = retrieve rt floppy targets.
Proof.
  unfold createPineconeMemoryProvider.
  destruct (negb (clientReady rt) || negb (enabled rt)); [discriminate|].
  destruct targets; [discriminate|]. now intros [= <-].
Qed.

Lemma retrieve_none (o : Oracle) (rt : Runtime) (floppy : Floppy)
    (targets : list Target) (topK : option Z) :
  run o O (retrieve rt floppy targets None topK) = ([], []).
Proof. reflexivity. Qed.

Lemma queryTargets_trace (o : Oracle) (limit : Z) (v : list Q) (targets : list Target) :
  forall (acc : list Entry) (n : nat),
    Forall (fun c => exists i ns, c = Query i ns limit v)
           (snd (run o n (queryTargets limit v targets acc))).
Proof.
  induction targets as [|t ts IH]; intros acc n; simpl; [constructor|].
  match goal with |- context [o n ?c] => destruct (o n c) as [e|matches] end.
  - specialize (IH acc (S n)).
    destruct (run o (S n) (queryTargets limit v ts acc)) as [a tr]. simpl in *.
    constructor; [eauto | exact IH].
  - specialize (IH (acc ++ map (mkEntry t) matches) (S n)).
    destruct (run o (S n) (queryTargets limit v ts _)) as [a tr]. simpl in *.
    constructor; [eauto | exact IH].
Qed.

Lemma limitOf_range (rt : Runtime) (topK : option Z) : 1 <= limitOf rt topK <= 20.
Proof. unfold limitOf. lia. Qed.

(** The result of the ranking, through the walk relation. *)
Lemma rank_walk (limit : Z) (pool : list Entry) :
  exists kept,
    rank limit pool = map toResult kept /\
    Walk (Z.max 1 limit) (sortEntries pool) ∅ O kept.
Proof.
  unfold rank. destruct pool as [|e pool].
  - exists []. split; [reflexivity | constructor].
  - destruct (collect_walk (Z.max 1 limit) (sortEntries (e :: pool)) ∅ [])
      as (kept & E & W).
    exists kept. split; [exact E | exact W].
Qed.

Lemma resultKey_toResult (e : Entry) : resultKey (toResult e) = keyOf e.
Proof. reflexivity. Qed.

Lemma doc_id_toResult (e : Entry) : doc_id (toResult e) = docIdE e.
Proof. reflexivity. Qed.

Lemma sublist_sorted (l1 l2 : list Entry) :
  l1 `sublist_of` l2 -> StronglySorted descending l2 -> StronglySorted descending l1.
Proof.
  induction 1 as [|x l1 l2 Hsub IH|x l1 l2 Hsub IH]; intros Hs.
  - constructor.
  - apply StronglySorted_inv in Hs as [Hs Hx]. constructor; [now apply IH|].
    rewrite Forall_forall in Hx |- *. intros y Hy. apply Hx.
    eapply elem_of_sublist; eassumption.
  - apply StronglySorted_inv in Hs as [Hs _]. now apply IH.
Qed.

Lemma rank_length (limit : Z) (pool : list Entry) :
  1 <= limit -> Z.of_nat (length (rank limit pool)) <= limit.
Proof.
  intros Hl. destruct (rank_walk limit pool) as (kept & -> & W).
  rewrite length_map. pose proof (walk_length _ _ _ _ _ W) as H. simpl in H. lia.
Qed.

Lemma rank_nodup (limit : Z) (pool : list Entry) :
  NoDup (map doc_id (rank limit pool)).
Proof.
  destruct (rank_walk limit pool) as (kept & -> & W).
  rewrite map_map. exact (walk_nodup _ _ _ _ _ W).
Qed.

Lemma rank_sorted (limit : Z) (pool : list Entry) :
  StronglySorted (fun a b => (b <= a)%Q) (map resultKey (rank limit pool)).
Proof.
  destruct (rank_walk limit pool) as (kept & -> & W).
  rewrite map_map.
  assert (Hs : StronglySorted descending kept).
  { eapply sublist_sorted; [exact (walk_sublist _ _ _ _ _ W) | apply sortEntries_sorted]. }
  clear W. induction Hs as [|e l Hs IH He]; simpl; constructor; [exact IH|].
  rewrite Forall_forall in He. rewrite Forall_forall. intros q Hq.
  apply list_elem_of_In, in_map_iff in Hq as (x & <- & Hx).
  apply He, list_elem_of_In, Hx.
Qed.

Lemma rank_best (limit : Z) (pool : list Entry) (r : Result) (e : Entry) :
  r ∈ rank limit pool -> e ∈ pool -> usable e -> docIdE e = doc_id r ->
  (keyOf e <= resultKey r)%Q.
Proof.
  destruct (rank_walk limit pool) as (kept & -> & W). intros Hr He Hu Hid.
  apply list_elem_of_In, in_map_iff in Hr as (s & <- & Hs).
  apply (walk_best _ _ _ _ _ W (sortEntries_sorted pool) s e);
    [apply list_elem_of_In, Hs | apply sortEntries_elem, He | exact Hu | exact Hid].
Qed.

End RetrieveFacts.

(** ** Retrieval: C1, C7, C8, C10 *)

Module RetrieveTheorems.

Import Js JsFacts Middleware RankProps RetrieveProps RankFacts RetrieveFacts Samples.

Lemma head_proj {A B : Type} (f : A -> B) (l : list A) (y : B) :
  head (map f l) = Some y -> exists x, x ∈ l /\ f x = y.
Proof.
  destruct l as [|x l]; [discriminate|]. simpl. intros E. injection E as <-.
  exists x. split; [left | reflexivity].
Qed.

(** C1, as the code has it: when the embedding request fails the retrieval
    returns the empty list, and the embedding request is the only command
    it issued (no target is queried). *)
Theorem retrieve_embedding_failure_returns_nothing
    (o : Oracle) (rt : Runtime) (floppy : Floppy) (targets : list Target)
    (query : string) (topK : option Z) :
  embeddingFailed (embeddingAnswer o rt query) ->
  result o (retrieve rt floppy targets (Some query) topK) = []
  /\ trace o (retrieve rt floppy targets (Some query) topK)
     = if truthy (trim query)
       then [FetchEmbedding (embedModel rt) (trim query)] else [].
Proof.
  intros Hfail. unfold result, trace. rewrite retrieve_run.
  destruct (truthy (trim query)); [|now split].
  destruct (embeddingAnswer o rt query) as [e|status body|[v|]];
    simpl in *; now split.
Qed.

Lemma retrieve_embedding_failure_returns_nothing_witness :
  result embedDown (retrieve rt0 catFloppy targets0 (Some "cat") None) = []
  /\ trace embedDown (retrieve rt0 catFloppy targets0 (Some "cat") None)
     = if truthy (trim "cat")
       then [FetchEmbedding (embedModel rt0) (trim "cat")] else [].
Proof.
  apply (retrieve_embedding_failure_returns_nothing
           embedDown rt0 catFloppy targets0 "cat" None).
  vm_compute. exact I.
Defined.

(** C1 as stated fails: the embedding service answers 503, the chunk
    "the cat sat" matches the query "cat" lexically, and the retrieval
    returns the empty list. *)
Lemma retrieve_embedding_failure_drops_local_matches :
  embeddingFailed (embeddingAnswer embedDown rt0 "cat")
  /\ ~ returnsLocalMatches embedDown rt0 catFloppy targets0 "cat" None.
Proof.
  split; [vm_compute; exact I|].
  unfold returnsLocalMatches. intros H.
  apply (f_equal (@length Result)) in H. vm_compute in H. discriminate.
Qed.

(** C7, as the code has it: the returned chunk identifiers are pairwise
    distinct, and a returned entry scores at least as high as every pooled
    instance of its chunk that carries a non-empty snippet. *)
Theorem retrieve_unique_best_usable
    (o : Oracle) (rt : Runtime) (floppy : Floppy) (targets : list Target)
    (query : string) (topK : option Z) :
  let rs := result o (retrieve rt floppy targets (Some query) topK) in
  NoDup (map doc_id rs)
  /\ forall r e, r ∈ rs -> e ∈ poolOf o rt floppy targets query topK ->
                 usable e -> docIdE e = doc_id r ->
                 (keyOf e <= resultKey r)%Q.
Proof.
  intros rs. subst rs.
  destruct (retrieve_result o rt floppy targets query topK) as [E|E]; rewrite E.
  - split; [constructor|]. intros r e Hr. inversion Hr.
  - split; [apply rank_nodup|]. intros r e. apply rank_best.
Qed.

(** C7 as stated fails: the target returns chunk "c1" with score 0.99 but
    no text, the lexical pass finds "c1" with score 0.98, and the returned
    entry is the lexical one. *)
Lemma retrieve_keeps_lower_scoring_instance :
  ~ keepsHighestInstance
      (result textlessHit (retrieve rt0 catFloppy targets0 (Some "cat") None))
      (poolOf textlessHit rt0 catFloppy targets0 "cat" None).
Proof.
  intros H.
  destruct (head_proj (fun r => (doc_id r, resultKey r))
              (result textlessHit (retrieve rt0 catFloppy targets0 (Some "cat") None))
              ("c1", 98 # 100) ltac:(vm_compute; reflexivity)) as (r & Hr & Er).
  destruct (head_proj (fun e => (docIdE e, keyOf e))
              (poolOf textlessHit rt0 catFloppy targets0 "cat" None)
              ("c1", 99 # 100) ltac:(vm_compute; reflexivity)) as (e & He & Ee).
  injection Er as Er1 Er2. injection Ee as Ee1 Ee2.
  specialize (H r e Hr He ltac:(congruence)). rewrite Er2, Ee2 in H.
  vm_compute in H. apply H. reflexivity.
Qed.

(** C8: the scores of the returned list never increase (a missing score
    counts as 0, as in the comparator of the source). *)
Theorem retrieve_sorted_by_score
    (o : Oracle) (rt : Runtime) (floppy : Floppy) (targets : list Target)
    (query : option string) (topK : option Z) :
  StronglySorted (fun a b => (b <= a)%Q)
    (map resultKey (result o (retrieve rt floppy targets query topK))).
Proof.
  destruct query as [query|]; [|constructor].
  destruct (retrieve_result o rt floppy targets query topK) as [E|E]; rewrite E.
  - constructor.
  - apply rank_sorted.
Qed.

(** C10: at most [max(1, min(20, topK || default))] entries are returned,
    hence never more than 20, and every vector query asks for exactly that
    many neighbours. *)
Theorem retrieve_at_most_limit
    (o : Oracle) (rt : Runtime) (floppy : Floppy) (targets : list Target)
    (query : option string) (topK : option Z) :
  let limit :=
    Z.max 1 (Z.min 20 (match topK with
                       | Some n => if n =? 0 then (if queryTopK rt =? 0 then 6 else queryTopK rt) else n
                       | None => if queryTopK rt =? 0 then 6 else queryTopK rt
                       end)) in
  Z.of_nat (length (result o (retrieve rt floppy targets query topK))) <= limit
  /\ limit <= 20
  /\ Forall (fun c => forall i ns k v, c = Query i ns k v -> k = limit)
            (trace o (retrieve rt floppy targets query topK)).
Proof.
  intros limit. assert (El : limit = limitOf rt topK) by reflexivity.
  pose proof (limitOf_range rt topK) as Hrange. rewrite El.
  destruct query as [query|].
  2:{ unfold result, trace. rewrite retrieve_none. simpl. repeat split; [lia | lia | constructor]. }
  split; [|split; [lia|]].
  - destruct (retrieve_result o rt floppy targets query topK) as [E|E]; rewrite E.
    + simpl. lia.
    + apply rank_length. lia.
  - unfold trace. rewrite retrieve_run.
    destruct (truthy (trim query)); [|constructor].
    destruct (vectorOfFetch (embeddingAnswer o rt query)) as [v|].
    + pose proof (queryTargets_trace o (limitOf rt topK) v targets [] 1%nat) as Ht.
      destruct (run o 1 (queryTargets (limitOf rt topK) v targets [])) as [hits t].
      simpl in *. constructor; [intros; discriminate|].
      eapply Forall_impl; [exact Ht|]. intros c (i & ns & ->) i' ns' k v' Ec.
      now injection Ec as _ _ <- _.
    + simpl. constructor; [intros; discriminate | constructor].
Qed.

End RetrieveTheorems.

(** ** Tokens *)

Module LexicalFacts.

Import Js JsProps JsFacts Middleware SpecWords.

Lemma uniq_elem_acc (xs acc : list string) (x : string) :
  x ∈ foldl (fun acc x => if decide (x ∈ acc) then acc else acc ++ [x]) acc xs ->
  x ∈ acc \/ x ∈ xs.
Proof.
  revert acc. induction xs as [|y xs IH]; intros acc H; simpl in H; [now left|].
  apply IH in H as [H|H]; [|right; now right].
  destruct (decide (y ∈ acc)); [now left|].
  apply elem_of_app in H as [H|H]; [now left|].
  apply list_elem_of_singleton in H as ->. right. left.
Qed.

Lemma uniq_elem (xs : list string) (x : string) : x ∈ uniq xs -> x ∈ xs.
Proof.
  intros H. apply uniq_elem_acc in H as [H|H]; [inversion H | exact H].
Qed.

Lemma takeWhile_length (p : ascii -> bool) (l : list ascii) :
  (length (takeWhile p l) <= length l)%nat.
Proof. induction l as [|c l IH]; simpl; [lia | destruct (p c); simpl; lia]. Qed.

(** Every match of a global scan is a match at some position. *)
Lemma matchAll_matches (matchAt : list ascii -> option nat) (P : string -> Prop) :
  (forall l n, matchAt l = Some (S n) -> P (str (take (S n) l))) ->
  forall l skip, Forall P (matchAll matchAt skip l).
Proof.
  intros HP. induction l as [|c l IH]; intros skip; simpl; [constructor|].
  destruct skip as [|k]; [|apply IH].
  destruct (matchAt (c :: l)) as [[|n]|] eqn:E; try apply IH.
  constructor; [apply (HP _ _ E) | apply IH].
Qed.

Lemma tokenAt_long (l : list ascii) (n : nat) :
  tokenAt l = Some (S n) -> 2 < len (str (take (S n) l)).
Proof.
  unfold tokenAt. destruct l as [|c rest]; [discriminate|].
  destruct (isAlnum c); [|discriminate].
  destruct (Nat.leb_spec 2 (length (takeWhile isNameChar rest))) as [Hle|]; [|discriminate].
  intros E. injection E as <-.
  pose proof (takeWhile_length isNameChar rest).
  unfold len. rewrite length_str, length_take. simpl length. lia.
Qed.

Lemma uniqueTokens_long (text : string) :
  Forall (fun t => len t > 2) (uniqueTokensOf text).
Proof.
  apply Forall_forall. intros t Ht. apply uniq_elem in Ht.
  pose proof (matchAll_matches tokenAt (fun t => 2 < len t) tokenAt_long
                (chars (toLowerCase text)) O) as H.
  rewrite Forall_forall in H. specialize (H t Ht). lia.
Qed.

Lemma filter_all {A : Type} (P : A -> Prop) `{forall x, Decision (P x)} (l : list A) :
  Forall P l -> filter P l = l.
Proof.
  induction 1 as [|x l Hx Hl IH]; [reflexivity|].
  rewrite filter_cons_True by exact Hx. now rewrite IH.
Qed.

Lemma filter_none {A : Type} (P : A -> Prop) `{forall x, Decision (P x)} (l : list A) :
  Forall (fun x => ~ P x) l -> filter P l = [].
Proof.
  induction 1 as [|x l Hx Hl IH]; [reflexivity|].
  rewrite filter_cons_False by exact Hx. exact IH.
Qed.

Lemma searchTokensOf_long (tokens : list string) :
  Forall (fun t => len t > 2) tokens -> searchTokensOf tokens = tokens.
Proof.
  intros H. unfold searchTokensOf. rewrite (filter_all _ _ H).
  now destruct tokens.
Qed.

Lemma includes_empty (p : string) : truthy p = true -> includes "" p = false.
Proof. destruct p; [discriminate | reflexivity]. Qed.

Lemma toLowerCase_empty : toLowerCase "" = "".
Proof. reflexivity. Qed.

Lemma filter_nonempty_elem {A : Type} (P : A -> Prop) `{forall x, Decision (P x)}
    (l : list A) :
  filter P l <> [] -> exists x, x ∈ l /\ P x.
Proof.
  intros Hne. destruct (filter P l) as [|x r] eqn:E; [congruence|].
  exists x. apply and_comm, (list_elem_of_filter P). rewrite E. left.
Qed.

(** A chunk whose text contains a token has a non-empty text. *)
Lemma hits_raw_truthy (tokens : list string) (raw : string) :
  Forall (fun t => len t > 2) tokens ->
  filter (fun t => includes (toLowerCase raw) t = true) tokens <> [] ->
  truthy raw = true.
Proof.
  intros Hlong Hne. apply filter_nonempty_elem in Hne as (t & Ht & Hinc).
  destruct raw; [|reflexivity].
  rewrite Forall_forall in Hlong. specialize (Hlong t Ht).
  rewrite toLowerCase_empty, includes_empty in Hinc; [discriminate|].
  apply truthy_len. lia.
Qed.

End LexicalFacts.

(** ** The lexical pass: C2 *)

Module LexicalTheorems.

Import Js JsFacts Middleware SpecWords LexicalFacts Samples.

Lemma lexicalMatch_emits (floppy : Floppy) (ids tokens : list string)
    (idx : nat) (k : KnowledgeChunk) :
  let lower := toLowerCase (chunkTextRaw k) in
  let hits := filter (fun t => includes lower t = true) tokens in
  truthy (chunkTextRaw k) = true ->
  (ids = [] \/ exists i, i ∈ ids /\ includes lower i = true) ->
  hits <> [] ->
  exists m,
    lexicalMatch floppy ids tokens idx k = Some m
    /\ m_id m = chunkIdOf floppy idx k
    /\ m_score m = Some (lexicalScore (length hits) (length tokens))
    /\ getStr (default ∅ (m_metadata m)) "origin"
       = Some (orStr (getTruthy (chunkMetadata k) "origin") "lexical").
Proof.
  intros lower hits Hraw Hids Hhits. unfold lexicalMatch. rewrite Hraw. simpl.
  assert (Hc : negb (bool_decide (ids = []))
               && negb (existsb (fun i => includes lower i) ids) = false).
  { destruct Hids as [->|(i & Hi & Hinc)]; [reflexivity|].
    apply andb_false_iff. right. apply negb_false_iff, existsb_exists.
    exists i. split; [now apply list_elem_of_In | exact Hinc]. }
  fold lower. rewrite Hc. fold hits.
  destruct hits as [|h hs] eqn:E; [congruence|].
  eexists. split; [reflexivity|]. simpl. repeat split.
  unfold getStr. rewrite !lookup_insert_ne by discriminate.
  now rewrite lookup_insert_eq.
Qed.

(** C2, as the code has it: the tokens are the distinct matches of
    [/[a-z0-9][a-z0-9-]{2,}/] in the lowercased query, with no stop-word
    filtering.  Every chunk whose lowercased text contains at least one of
    them (and, when the query names case identifiers, one of those) gets the
    score [min(0.98, 0.6 + (matched / total) * 0.4)], with origin [lexical]
    unless the chunk's metadata has an origin of its own. *)
Theorem lexical_pass_scores_every_token
    (floppy : Floppy) (text : string) (idx : nat) (k : KnowledgeChunk) :
  let tokens := uniqueTokensOf text in
  let ids := queryCaseIdsLowerOf text in
  let lower := toLowerCase (chunkTextRaw k) in
  let hits := filter (fun t => includes lower t = true) tokens in
  knowledgeChunks floppy !! idx = Some k ->
  hits <> [] ->
  (ids = [] \/ exists i, i ∈ ids /\ includes lower i = true) ->
  exists m,
    m ∈ lexicalMatches floppy ids tokens
    /\ m_id m = chunkIdOf floppy idx k
    /\ m_score m
       = Some (Qmin (98 # 100)
                 ((6 # 10) + (inject_Z (Z.of_nat (length hits))
                              / inject_Z (Z.of_nat (length tokens))) * (4 # 10)))
    /\ getStr (default ∅ (m_metadata m)) "origin"
       = Some (orStr (getTruthy (chunkMetadata k) "origin") "lexical").
Proof.
  intros tokens ids lower hits Hk Hhits Hids.
  pose proof (uniqueTokens_long text) as Hlong. fold tokens in Hlong.
  pose proof (hits_raw_truthy tokens _ Hlong Hhits) as Hraw.
  destruct (lexicalMatch_emits floppy ids tokens idx k Hraw Hids Hhits)
    as (m & Em & Hid & Hscore & Horigin).
  exists m. split; [|now repeat split].
  unfold lexicalMatches.
  destruct tokens as [|t ts] eqn:Et; [now destruct Hhits|].
  destruct (knowledgeChunks floppy) as [|k0 ks] eqn:Ek; [discriminate|].
  rewrite (searchTokensOf_long _ Hlong).
  apply list_elem_of_omap. exists (idx, k). split; [|exact Em].
  apply (elem_of_lookup_imap_2 pair). exact Hk.
Qed.

Lemma lexical_pass_scores_every_token_witness :
  exists m,
    m ∈ lexicalMatches dogFloppy (queryCaseIdsLowerOf "the cat") (uniqueTokensOf "the cat")
    /\ m_id m = chunkIdOf dogFloppy 0 (obj "c1" "the dog barks")
    /\ m_score m
       = Some (Qmin (98 # 100)
                 ((6 # 10)
                  + (inject_Z (Z.of_nat (length
                       (filter (fun t => includes (toLowerCase
                                  (chunkTextRaw (obj "c1" "the dog barks"))) t = true)
                               (uniqueTokensOf "the cat"))))
                     / inject_Z (Z.of_nat (length (uniqueTokensOf "the cat"))))
                    * (4 # 10)))
    /\ getStr (default ∅ (m_metadata m)) "origin"
       = Some (orStr (getTruthy (chunkMetadata (obj "c1" "the dog barks")) "origin")
                     "lexical").
Proof.
  apply (lexical_pass_scores_every_token dogFloppy "the cat" 0
           (obj "c1" "the dog barks")).
  - reflexivity.
  - vm_compute. discriminate.
  - left. vm_compute. reflexivity.
Defined.

(** C2 as stated fails: for the query "the cat" the stop word "the" is a
    token of the code's lexical pass, so the chunk "the dog barks" is scored
    (0.8), whereas no token that survives the stop-word list occurs in it. *)
Lemma lexical_pass_scores_stop_words :
  ~ lexicalPassAsSpecified dogFloppy "the cat".
Proof.
  unfold lexicalPassAsSpecified. intros H. apply Forall2_length in H.
  vm_compute in H. discriminate.
Qed.

End LexicalTheorems.

(** ** Sync of an emptied knowledge base: C9 *)

Module SyncTheorems.

Import Js JsFacts Middleware Samples.

(** C9: when no chunk with text is left, the sync issues exactly one
    command, [deleteAll] on the knowledge base's namespace of the tenant's
    index: nothing is embedded or upserted, whatever the services answer. *)
Theorem sync_empty_clears_namespace
    (sha256hex : string -> string) (jsonStringify : Val -> string)
    (o : Oracle) (rt : Runtime) (uuid tenantId : string) (floppy : Floppy) :
  clientReady rt = true -> enabled rt = true -> truthy tenantId = true ->
  prepare floppy = [] ->
  trace o (syncFloppyToPinecone sha256hex jsonStringify rt uuid tenantId (Some floppy))
  = [DeleteAll (sanitizeIndexName tenantId)
               (sanitizeNamespace ("floppy-" +:+ f_id floppy))]
  /\ result o (syncFloppyToPinecone sha256hex jsonStringify rt uuid tenantId (Some floppy))
     = Returned tt.
Proof.
  intros Hc He Ht Hp. unfold trace, result, syncFloppyToPinecone.
  rewrite Hc, He, Ht, Hp. simpl. split; reflexivity.
Qed.

Lemma sync_empty_clears_namespace_witness :
  trace targetsDown
    (syncFloppyToPinecone (fun s => s) (fun _ => "[]") rt0 "u" "acme" (Some blankFloppy))
  = [DeleteAll (sanitizeIndexName "acme")
               (sanitizeNamespace ("floppy-" +:+ f_id blankFloppy))]
  /\ result targetsDown
       (syncFloppyToPinecone (fun s => s) (fun _ => "[]") rt0 "u" "acme" (Some blankFloppy))
     = Returned tt.
Proof.
  apply (sync_empty_clears_namespace (fun s => s) (fun _ => "[]") targetsDown rt0
           "u" "acme" blankFloppy); reflexivity.
Defined.

End SyncTheorems.

(** ** Case identifiers *)

Module ExactIdFacts.

Import Js JsProps JsFacts Middleware RankProps RetrieveProps RankFacts RetrieveFacts LexicalFacts.

Lemma dropWhile_keeps (l : list ascii) :
  Exists nonSpace l -> Exists nonSpace (dropWhile isWhiteSpace l).
Proof.
  induction 1 as [c l Hc|c l Hl IH]; simpl.
  - unfold nonSpace in Hc. rewrite Hc. now left.
  - destruct (isWhiteSpace c) eqn:E; [exact IH | now right].
Qed.

Lemma Exists_rev_chars (l : list ascii) : Exists nonSpace l -> Exists nonSpace (rev l).
Proof.
  rewrite !Exists_exists. intros (c & Hc & Hn). exists c. split; [|exact Hn].
  apply list_elem_of_In, (proj1 (in_rev l c)), list_elem_of_In. exact Hc.
Qed.

Lemma trim_truthy (s : string) : Exists nonSpace (chars s) -> truthy (trim s) = true.
Proof.
  intros H. apply truthy_chars. unfold trim. rewrite chars_str. unfold trimChars.
  apply dropWhile_keeps, Exists_rev_chars, dropWhile_keeps, Exists_rev_chars in H.
  intros E. rewrite E in H. inversion H.
Qed.

Lemma startsWith_head (a : ascii) (p l : list ascii) :
  startsWith (a :: p) l = true -> exists l', l = a :: l'.
Proof.
  destruct l as [|b l]; simpl; [discriminate|].
  destruct (decide (a = b)) as [->|]; [eauto | discriminate].
Qed.

Lemma includesChars_head (a : ascii) (p l : list ascii) :
  includesChars (a :: p) l = true -> a ∈ l.
Proof.
  induction l as [|b l IH]; simpl.
  - discriminate.
  - intros H. apply orb_true_iff in H as [H|H].
    + destruct (decide (a = b)) as [->|]; [left | discriminate].
    + right. now apply IH.
Qed.

Lemma chars_toLowerCase (s : string) : chars (toLowerCase s) = map lowerChar (chars s).
Proof. unfold toLowerCase. apply chars_str. Qed.

Lemma lower_c_nonSpace (x : ascii) : lowerChar x = "c"%char -> nonSpace x.
Proof.
  unfold lowerChar, nonSpace. destruct (isUpper x) eqn:Hu.
  - intros _. unfold isUpper, isWhiteSpace in *.
    apply andb_true_iff in Hu as [H1 H2].
    apply Nat.leb_le in H1, H2.
    destruct (Nat.leb_spec 9 (code x)), (Nat.leb_spec (code x) 13),
             (Nat.eqb_spec (code x) 32), (Nat.eqb_spec (code x) 160);
      simpl; try reflexivity; lia.
  - intros ->. reflexivity.
Qed.

(** A text that contains a lowercased case identifier is not blank. *)
Lemma includes_id_trim_truthy (raw i : string) (tl : list ascii) :
  chars i = "c"%char :: tl ->
  includes (toLowerCase raw) i = true ->
  truthy (trim raw) = true.
Proof.
  intros Hi Hinc. apply trim_truthy. unfold includes in Hinc.
  rewrite Hi, chars_toLowerCase in Hinc. apply includesChars_head in Hinc.
  apply list_elem_of_fmap in Hinc as (x & Ex & Hx).
  apply Exists_exists. exists x. split; [exact Hx|].
  apply lower_c_nonSpace. now symmetry.
Qed.

Lemma caseIdAt_head (l : list ascii) (n : nat) :
  caseIdAt l = Some (S n) ->
  exists tl, chars (str (take (S n) l)) = "C"%char :: tl.
Proof.
  unfold caseIdAt. destruct l as [|c [|s rest]]; try discriminate.
  destruct (bool_decide_reflect (c = "C"%char)) as [->|]; [|discriminate].
  intros _. rewrite chars_str. simpl. eauto.
Qed.

Lemma queryCaseIds_head (text i : string) :
  i ∈ queryCaseIdsLowerOf text -> exists tl, chars i = "c"%char :: tl.
Proof.
  unfold queryCaseIdsLowerOf, extractCaseIdsFromText. intros Hi.
  apply list_elem_of_fmap in Hi as (u & -> & Hu).
  destruct (truthy text); simpl in Hu; [|inversion Hu].
  apply uniq_elem in Hu.
  pose proof (matchAll_matches caseIdAt
                (fun s => exists tl, chars s = "C"%char :: tl) caseIdAt_head
                (chars (toUpperCase text)) O) as H.
  rewrite Forall_forall in H. destruct (H u Hu) as (tl & E).
  rewrite chars_toLowerCase, E. simpl. eauto.
Qed.

(** The only index at which a partial map over the chunks is defined. *)
Lemma omap_imap_single {A B : Type} (f : nat -> A -> option B) (l : list A)
    (g : nat -> nat) (idx : nat) (k : A) (d : B) :
  l !! idx = Some k -> f (g idx) k = Some d ->
  (forall j k', l !! j = Some k' -> j <> idx -> f (g j) k' = None) ->
  omap (fun p => f (fst p) (snd p)) (imap (fun i x => (g i, x)) l) = [d].
Proof.
  revert g idx. induction l as [|x l IH]; intros g idx Hk Hd Hnone; [discriminate|].
  rewrite imap_cons. simpl. destruct idx as [|idx]; simpl in Hk.
  - injection Hk as ->. rewrite Hd. f_equal.
    clear IH Hd. assert (Hl : forall j k', l !! j = Some k' -> f (g (S j)) k' = None).
    { intros j k' Hj. apply (Hnone (S j) k' Hj). discriminate. }
    clear Hnone. revert g Hl. induction l as [|y l IH]; intros g Hl; [reflexivity|].
    rewrite imap_cons. simpl. rewrite (Hl O y eq_refl).
    apply (IH (g ∘ S)). intros j k' Hj. apply (Hl (S j) k' Hj).
  - rewrite (Hnone O x eq_refl) by discriminate.
    apply (IH (g ∘ S) idx Hk Hd). intros j k' Hj Hne.
    apply (Hnone (S j) k' Hj). congruence.
Qed.

Lemma chunkIdOf_truthy (floppy : Floppy) (idx : nat) (k : KnowledgeChunk) :
  truthy (chunkIdOf floppy idx k) = true.
Proof.
  unfold chunkIdOf, orStr.
  destruct (orElse _ _) as [s|] eqn:E.
  - destruct (truthy s) eqn:Hs; [exact Hs|].
    apply truthy_len. rewrite !len_app. pose proof (len_nonneg (f_id floppy)).
    pose proof (len_nonneg (ofNat idx)). change (len ":chunk:") with 7. lia.
  - apply truthy_len. rewrite !len_app. pose proof (len_nonneg (f_id floppy)).
    pose proof (len_nonneg (ofNat idx)). change (len ":chunk:") with 7. lia.
Qed.

Lemma lexicalMatches_score (floppy : Floppy) (ids tokens : list string) (m : Match) :
  m ∈ lexicalMatches floppy ids tokens -> (scoreKey m <= 98 # 100)%Q.
Proof.
  unfold lexicalMatches.
  destruct tokens as [|t ts]; [inversion 1|].
  destruct (knowledgeChunks floppy) as [|k0 ks]; [inversion 1|].
  intros Hm. apply list_elem_of_omap in Hm as ([j k'] & _ & E). simpl in E.
  unfold lexicalMatch in E.
  destruct (negb (truthy (chunkTextRaw k'))); [discriminate|].
  destruct (_ && _); [discriminate|].
  destruct (filter _ _); [discriminate|].
  injection E as <-. unfold scoreKey, lexicalScore. simpl. apply Q.le_min_l.
Qed.

End ExactIdFacts.

(** ** The exact-identifier pass: C5 *)

Module ExactIdTheorems.

Import Js JsProps JsFacts Middleware RankProps RetrieveProps RankFacts RetrieveFacts LexicalFacts ExactIdFacts Samples.

Lemma directCaseMatch_emits (floppy : Floppy) (ids : list string)
    (idx : nat) (k : KnowledgeChunk) :
  truthy (trim (chunkTextRaw k)) = true ->
  (exists i, i ∈ ids /\ includes (toLowerCase (chunkTextRaw k)) i = true) ->
  exists d,
    directCaseMatch floppy ids idx k = Some d
    /\ m_score d = Some CASE_ID_SCORE
    /\ docIdOf d = chunkIdOf floppy idx k
    /\ snippetOf (default ∅ (m_metadata d)) = trim (chunkTextRaw k).
Proof.
  intros Htrim (i & Hi & Hinc). unfold directCaseMatch.
  assert (Hraw : truthy (chunkTextRaw k) = true).
  { destruct (chunkTextRaw k); [discriminate Htrim | reflexivity]. }
  rewrite Hraw. simpl.
  destruct (filter _ ids) as [|h hs] eqn:E.
  { assert (Hin : i ∈ filter (fun i => includes (toLowerCase (chunkTextRaw k)) i = true) ids)
      by (apply list_elem_of_filter; now split).
    rewrite E in Hin. inversion Hin. }
  eexists. split; [reflexivity|]. simpl.
  pose proof (chunkIdOf_truthy floppy idx k) as Hid.
  repeat split.
  - unfold docIdOf, getTruthy, getStr. simpl.
    repeat (rewrite lookup_insert_ne by discriminate). rewrite lookup_insert_eq.
    rewrite Hid. simpl. unfold orStr. rewrite Hid. simpl. now rewrite Hid.
  - unfold snippetOf, getStr. rewrite lookup_insert_eq. now rewrite Htrim.
Qed.

Lemma directCaseMatch_none (floppy : Floppy) (ids : list string)
    (j : nat) (k : KnowledgeChunk) :
  (forall i, i ∈ ids -> includes (toLowerCase (chunkTextRaw k)) i = false) ->
  directCaseMatch floppy ids j k = None.
Proof.
  intros H. unfold directCaseMatch.
  destruct (negb (truthy (chunkTextRaw k))); [reflexivity|].
  rewrite filter_none; [reflexivity|].
  apply Forall_forall. intros i Hi. rewrite (H i Hi). discriminate.
Qed.

Lemma collect_first (lim : Z) (e : Entry) (rest : list Entry) :
  1 <= lim ->
  truthy (snippetOfEntry e) = true -> truthy (docIdOf (match_ e)) = true ->
  exists more, collect lim (e :: rest) ∅ [] = toResult e :: more.
Proof.
  intros Hl Hs Hd. simpl.
  destruct (Z.geb_spec (Z.of_nat 0) lim) as [|_]; [lia|].
  rewrite Hs, Hd. simpl.
  rewrite bool_decide_eq_false_2 by apply not_elem_of_empty.
  destruct (collect_walk lim rest ({[docIdOf (match_ e)]} ∪ ∅) [toResult e])
    as (kept & -> & _).
  simpl. eexists. reflexivity.
Qed.

Lemma rank_middle (limit : Z) (l1 l2 : list Entry) (e : Entry) :
  rank limit (l1 ++ e :: l2)
  = collect (Z.max 1 limit) (sortEntries (l1 ++ e :: l2)) ∅ [].
Proof. unfold rank. now destruct l1. Qed.

(** C5, as the code has it: when the query has been embedded, one chunk is
    the only one to contain an identifier of the query, and no vector match
    scores 0.999 or more (in particular when every target fails, so that
    there is no vector match), that chunk is returned at position 0, with
    the exact-identifier score 0.999. *)
Theorem retrieve_exact_id_first
    (o : Oracle) (rt : Runtime) (floppy : Floppy) (targets : list Target)
    (query : string) (topK : option Z) (idx : nat) (k : KnowledgeChunk) :
  let ids := queryCaseIdsLowerOf (trim query) in
  vectorOfFetch (embeddingAnswer o rt query) <> None ->
  Forall (fun e => (keyOf e < CASE_ID_SCORE)%Q)
         (vectorHitsOf o rt targets query topK) ->
  knowledgeChunks floppy !! idx = Some k ->
  (exists i, i ∈ ids /\ includes (toLowerCase (chunkTextRaw k)) i = true) ->
  (forall j k' i, knowledgeChunks floppy !! j = Some k' -> j <> idx -> i ∈ ids ->
                  includes (toLowerCase (chunkTextRaw k')) i = false) ->
  exists r rest,
    result o (retrieve rt floppy targets (Some query) topK) = r :: rest
    /\ doc_id r = chunkIdOf floppy idx k
    /\ Score r = Some CASE_ID_SCORE
    /\ content r = trim (chunkTextRaw k).
Proof.
  intros ids Hvec Hhits Hk Hhas Honly.
  assert (Htext : truthy (trim query) = true).
  { destruct Hhas as (i & Hi & _). unfold ids, queryCaseIdsLowerOf,
      extractCaseIdsFromText in Hi.
    destruct (truthy (trim query)); [reflexivity | inversion Hi]. }
  rewrite (retrieve_result_ok o rt floppy targets query topK Htext Hvec).
  assert (Htrim : truthy (trim (chunkTextRaw k)) = true).
  { destruct Hhas as (i & Hi & Hinc).
    destruct (queryCaseIds_head _ _ Hi) as (tl & Etl).
    exact (includes_id_trim_truthy _ _ _ Etl Hinc). }
  destruct (directCaseMatch_emits floppy ids idx k Htrim Hhas)
    as (d & Ed & Hscore & Hdoc & Hsnip).
  assert (Hdirect : directCaseMatches floppy ids = [d]).
  { unfold directCaseMatches. destruct Hhas as (i & Hi & _).
    destruct ids as [|i0 ids0] eqn:Eids; [inversion Hi|].
    destruct (knowledgeChunks floppy) as [|k0 ks] eqn:Ek; [discriminate|].
    rewrite <- Eids in *.
    apply (omap_imap_single (directCaseMatch floppy ids) (k0 :: ks) (fun i => i) idx k d
             Hk Ed).
    intros j k' Hj Hne. apply directCaseMatch_none. intros i' Hi'.
    exact (Honly j k' i' Hj Hne Hi'). }
  unfold poolOf, aggregate. fold ids. rewrite Hdirect. simpl map.
  set (hits := vectorHitsOf o rt targets query topK) in *.
  set (lex := map (fun m => mkEntry (localTarget m) m)
                  (lexicalMatches floppy ids (uniqueTokensOf (trim query)))).
  set (e := mkEntry (localTarget d) d).
  assert (Hkey : keyOf e == CASE_ID_SCORE).
  { unfold keyOf, scoreKey, e. simpl. rewrite Hscore. reflexivity. }
  assert (Htop : sortEntries (hits ++ e :: lex) = e :: sortEntries (hits ++ lex)).
  { apply sortEntries_top. intros x Hx. rewrite Hkey.
    apply elem_of_app in Hx as [Hx|Hx].
    - rewrite Forall_forall in Hhits. now apply Hhits.
    - apply list_elem_of_fmap in Hx as (m & -> & Hm).
      apply lexicalMatches_score in Hm. unfold keyOf. simpl.
      eapply Qle_lt_trans; [exact Hm | reflexivity]. }
  change ([e] ++ lex) with (e :: lex). rewrite rank_middle, Htop.
  pose proof (limitOf_range rt topK) as Hrange.
  destruct (collect_first (Z.max 1 (limitOf rt topK)) e (sortEntries (hits ++ lex)))
    as (more & ->).
  - lia.
  - unfold snippetOfEntry, e. simpl. rewrite Hsnip. exact Htrim.
  - unfold e. simpl. rewrite Hdoc. apply chunkIdOf_truthy.
  - exists (toResult e), more. repeat split.
    + unfold toResult, e. simpl. exact Hdoc.
    + unfold toResult, e. simpl. exact Hscore.
    + unfold toResult, snippetOfEntry, e. simpl. exact Hsnip.
Qed.

Lemma retrieve_exact_id_first_witness :
  let k := obj "c1" "Case CS22222: login loop" in
  exists r rest,
    result targetsDown
      (retrieve rt0 casesFloppy targets0 (Some "status of cs22222 please") None)
    = r :: rest
    /\ doc_id r = chunkIdOf casesFloppy 1 k
    /\ Score r = Some CASE_ID_SCORE
    /\ content r = trim (chunkTextRaw k).
Proof.
  intros k.
  assert (E : queryCaseIdsLowerOf (trim "status of cs22222 please") = ["cs22222"])
    by (vm_compute; reflexivity).
  apply (retrieve_exact_id_first targetsDown rt0 casesFloppy targets0
           "status of cs22222 please" None 1 k).
  - vm_compute. discriminate.
  - vm_compute. constructor.
  - reflexivity.
  - exists "cs22222". split; [rewrite E; left | vm_compute; reflexivity].
  - intros j k' i Hj Hne Hi. rewrite E in Hi.
    apply list_elem_of_singleton in Hi as ->.
    destruct j as [|[|j]]; simpl in Hj.
    + injection Hj as <-. vm_compute. reflexivity.
    + congruence.
    + discriminate.
Defined.

(** C5 as stated fails: the query names CS11111 and CS22222, each present
    in exactly one chunk; every target fails; with [topK = 1] the only
    entry returned is the chunk of CS11111, and the chunk of CS22222 is not
    returned at all. *)
Lemma retrieve_exact_id_cut_by_limit :
  let k := obj "c1" "Case CS22222: login loop" in
  "cs22222" ∈ queryCaseIdsLowerOf (trim "CS11111 CS22222")
  /\ inExactlyOneChunk casesFloppy "cs22222" 1
  /\ vectorOfFetch (embeddingAnswer targetsDown rt0 "CS11111 CS22222") <> None
  /\ vectorHitsOf targetsDown rt0 targets0 "CS11111 CS22222" (Some 1) = []
  /\ ~ returnsChunk targetsDown rt0 casesFloppy targets0 "CS11111 CS22222"
         (Some 1) 1 k.
Proof.
  intros k. split; [|split; [|split; [|split]]].
  - replace (queryCaseIdsLowerOf _) with ["cs11111"; "cs22222"]
      by (vm_compute; reflexivity).
    right. left.
  - intros j k0 Hj. destruct j as [|[|j]]; simpl in Hj; [| |discriminate];
      injection Hj as <-; split; intros H; try reflexivity; try discriminate;
      vm_compute in H; discriminate.
  - vm_compute. discriminate.
  - vm_compute. reflexivity.
  - intros (r & Hr & Hid).
    assert (Hids : doc_id <$>
              result targetsDown
                (retrieve rt0 casesFloppy targets0 (Some "CS11111 CS22222") (Some 1))
            = ["c0"]) by (vm_compute; reflexivity).
    apply (list_elem_of_fmap_2 doc_id) in Hr. rewrite Hids in Hr.
    apply list_elem_of_singleton in Hr. rewrite Hid in Hr.
    vm_compute in Hr. discriminate.
Qed.

End ExactIdTheorems.

